(** * The [get] helper and its stale-while-revalidate result cache

    A shallow embedding of [core/frontend/helpers/get.js]: the module-level
    cache [cachedResults], the function [returnCacheAndStartRefetch] that
    serves a stored promise while it refreshes it, and the exported block
    helper [get] built on it.

    JavaScript objects are finite maps from property names to values, the
    entry objects of the cache live in a heap and are named by their
    location (the callbacks of the refresh path capture the entry object
    itself), promises are numbered in the order the API controller hands
    them out, and the event loop is a transition system whose events are
    the calls of the helper and the settlements of the promises. *)

From stdpp Require Import base option list gmap strings fin_maps.

(** ** Values *)

(** A value that is thrown, or that a promise is rejected with: [null] or
    [undefined], or an error object, of which only the [message] is ever
    read (line 164) and is taken to be a string. *)
Inductive Error :=
| Nullish
| ErrorObject (message : string).

(** How a synchronous call completes: with a value, or by throwing. *)
Inductive Completion (A : Type) :=
| Normal (a : A)
| Throw (e : Error).
Arguments Normal {A} a.
Arguments Throw {A} e.

(** How a promise settles. *)
Inductive Settled (R : Type) :=
| Fulfilled (r : R)
| Rejected (e : Error).
Arguments Fulfilled {R} r.
Arguments Rejected {R} e.

(** Heap locations and promises are numbered in allocation order. *)
Abbreviation loc := nat (only parsing).
Abbreviation PromiseId := nat (only parsing).

(** An object stored under [cachedResults[controllerName]]: either the
    literal [{isFetching: true, promise: promise}] of line 212 or the empty
    literal [{}] of line 193.  A property that is absent reads as
    [undefined], here [None]. *)
Record Entry := { isFetching : option bool; promise : option PromiseId }.

Definition empty_object : Entry := {| isFetching := None; promise := None |}.

(** [!x] of JavaScript for a property holding a boolean or nothing. *)
Definition truthy (x : option bool) : bool := default false x.

(** The two closures passed to [promise.then]: lines 203-206 capture the
    entry object [cache] and the new [promise]; lines 217-219 capture the
    two property names and look the entry up again when they run. *)
Inductive Callback :=
| RefreshDone (cache : loc) (promise : PromiseId)
| ColdDone (controllerName stringApiOptions : string).

(** The [TypeError] of reading a property of [undefined], of calling what
    is not a function. *)
Definition TypeError : Error := ErrorObject "TypeError".

(** [err.message]: reading a property of [null] or of [undefined]
    throws. *)
Definition read_message (err : Error) : Completion string :=
  match err with
  | Nullish => Throw TypeError
  | ErrorObject message => Normal message
  end.

Section Cache.

(** [apiOptions] objects, API controllers and API results are values of
    the caller; [JSON.stringify] is the serialisation of the options. *)
Context {Opts Controller Result : Type}.
Variable JSON_stringify : Opts → string.

(** One call [controller[action](apiOptions)], annotated with the
    [controllerName] of the call of [returnCacheAndStartRefetch] that
    made it. *)
Record Request := {
  req_controller : Controller;
  req_action : string;
  req_options : Opts;
  req_controllerName : string
}.

(** A promise handed out by a controller: pending while [status] is
    [None]; [handlers] are the callbacks attached with [then]. *)
Record PromiseState := {
  request : Request;
  status : option (Settled Result);
  handlers : list Callback
}.

(** The module state: [cachedResults] maps a controller name to the object
    stored under it, itself a map from property names to entry objects;
    [promises] lists every promise the controllers have returned, the
    n-th call returning promise n.

    Property names inherited from [Object.prototype] are outside this
    model of [cachedResults]: the names [get] passes (an alias of
    [RESOURCES] or [undefined], ["browse"] or ["read"], the JSON text of
    an object) are never among them. *)
Record State := {
  cachedResults : gmap string (gmap string loc);
  heap : list Entry;
  promises : list PromiseState
}.

Definition init : State :=
  {| cachedResults := ∅; heap := []; promises := [] |}.

Definition set_cachedResults (f : gmap string (gmap string loc) → gmap string (gmap string loc))
    (st : State) : State :=
  {| cachedResults := f (cachedResults st); heap := heap st; promises := promises st |}.

Definition set_heap (f : list Entry → list Entry) (st : State) : State :=
  {| cachedResults := cachedResults st; heap := f (heap st); promises := promises st |}.

Definition set_promises (f : list PromiseState → list PromiseState) (st : State) : State :=
  {| cachedResults := cachedResults st; heap := heap st; promises := f (promises st) |}.

Definition set_isFetching (b : bool) (e : Entry) : Entry :=
  {| isFetching := Some b; promise := promise e |}.

Definition set_promise (p : PromiseId) (e : Entry) : Entry :=
  {| isFetching := isFetching e; promise := Some p |}.

(** ** Synchronous code: state passing with exceptions *)

Definition M (A : Type) : Type := State → State * Completion A.

Definition ret {A} (a : A) : M A := λ st, (st, Normal a).

Definition bind {A B} (c : M A) (k : A → M B) : M B :=
  λ st, match c st with
        | (st', Normal a) => k a st'
        | (st', Throw e) => (st', Throw e)
        end.

Notation "'let!' x ':=' c 'in' k" := (bind c (λ x, k))
  (at level 10, x pattern, c at level 100, k at level 200).
Notation "c ';;' k" := (bind c (λ _, k))
  (at level 100, k at level 200, right associativity).

Definition throw {A} (e : Error) : M A := λ st, (st, Throw e).

(** [cachedResults[controllerName]] *)
Definition read_controllerObject (controllerName : string) : M (option (gmap string loc)) :=
  λ st, (st, Normal (cachedResults st !! controllerName)).

(** [cachedResults[controllerName] = {}] *)
Definition new_controllerObject (controllerName : string) : M unit :=
  λ st, (set_cachedResults (<[controllerName := ∅]>) st, Normal tt).

(** [cachedResults[controllerName][name]] *)
Definition read_property (controllerName name : string) : M (option loc) :=
  λ st, (st, Normal (cachedResults st !! controllerName ≫= (.!! name))).

(** [cachedResults[controllerName][name] = object] *)
Definition write_property (controllerName name : string) (object : loc) : M unit :=
  λ st, (set_cachedResults (alter (<[name := object]>) controllerName) st, Normal tt).

(** An object literal: a fresh object in the heap. *)
Definition alloc (e : Entry) : M loc :=
  λ st, (set_heap (λ h, h ++ [e]) st, Normal (length (heap st))).

(** [cache.isFetching], [cache.promise] and [cache.isFetching = b] *)
Definition read_isFetching (cache : loc) : M (option bool) :=
  λ st, (st, Normal (heap st !! cache ≫= isFetching)).

Definition read_promise (cache : loc) : M (option PromiseId) :=
  λ st, (st, Normal (heap st !! cache ≫= promise)).

Definition write_isFetching (cache : loc) (b : bool) : M unit :=
  λ st, (set_heap (alter (set_isFetching b) cache) st, Normal tt).

(** [controller[action](apiOptions)]: a [TypeError] when [controller] is
    [undefined], a new pending promise otherwise.  A [Controller] is an
    API controller as the helper finds them: it has the method [action],
    and the method returns a promise; a controller without the method, or
    whose method throws, makes the call throw where [undefined] does, and
    is not told apart from it here. *)
Definition call_controller (controller : option Controller) (action : string)
    (apiOptions : Opts) (controllerName : string) : M PromiseId :=
  match controller with
  | None => throw TypeError
  | Some c =>
      λ st, (set_promises
               (λ ps, ps ++ [{| request := {| req_controller := c; req_action := action;
                                              req_options := apiOptions;
                                              req_controllerName := controllerName |};
                                status := None; handlers := [] |}]) st,
             Normal (length (promises st)))
  end.

Definition add_handler (cb : Callback) (ps : PromiseState) : PromiseState :=
  {| request := request ps; status := status ps; handlers := handlers ps ++ [cb] |}.

(** [promise.then(cb)], on a promise the controller has just returned:
    the callback waits for the settlement, which the model delivers as a
    later event (a [then] callback never runs synchronously). *)
Definition promise_then (p : PromiseId) (cb : Callback) : M unit :=
  λ st, (set_promises (alter (add_handler cb) p) st, Normal tt).

(** ** [returnCacheAndStartRefetch], lines 188-222 *)
Definition returnCacheAndStartRefetch (controller : option Controller) (action : string)
    (apiOptions : Opts) (controllerName : string) : M (option PromiseId) :=
  let! o := read_controllerObject controllerName in
  (if o is None then new_controllerObject controllerName else ret tt);;
  let! a := read_property controllerName action in
  (if a is None
   then let! object := alloc empty_object in write_property controllerName action object
   else ret tt);;
  let stringApiOptions := JSON_stringify apiOptions in
  let! cache := read_property controllerName stringApiOptions in
  match cache with
  | Some cache =>
      let! f := read_isFetching cache in
      (if negb (truthy f)
       then write_isFetching cache true;;
            let! promise := call_controller controller action apiOptions controllerName in
            promise_then promise (RefreshDone cache promise)
       else ret tt);;
      read_promise cache
  | None =>
      let! promise := call_controller controller action apiOptions controllerName in
      let! object := alloc {| isFetching := Some true; promise := Some promise |} in
      write_property controllerName stringApiOptions object;;
      promise_then promise (ColdDone controllerName stringApiOptions);;
      ret (Some promise)
  end.

(** ** Settlement of a promise *)

(** The body of the two callbacks.  The callback of lines 217-219 reads
    the entry through the cache again; the entry is there, for nothing ever
    removes one. *)
Definition run_callback (st : State) (cb : Callback) : State :=
  match cb with
  | RefreshDone cache promise =>
      set_heap (alter (set_isFetching false) cache)
        (set_heap (alter (set_promise promise) cache) st)
  | ColdDone controllerName stringApiOptions =>
      match cachedResults st !! controllerName ≫= (.!! stringApiOptions) with
      | Some cache => set_heap (alter (set_isFetching false) cache) st
      | None => st
      end
  end.

Definition set_status (s : Settled Result) (ps : PromiseState) : PromiseState :=
  {| request := request ps; status := Some s; handlers := handlers ps |}.

(** Promise [p] settles with [s] and the settlement is delivered to its
    callbacks: one event, defined for a pending promise only.  A callback
    attached with [then(f)] runs on fulfilment only, so a rejection runs
    none. *)
Definition settle (p : PromiseId) (s : Settled Result) (st : State) : option State :=
  match promises st !! p with
  | Some ps =>
      match status ps with
      | Some _ => None
      | None =>
          let st' := set_promises (alter (set_status s) p) st in
          Some (match s with
                | Fulfilled _ => foldl run_callback st' (handlers ps)
                | Rejected _ => st'
                end)
      end
  | None => None
  end.

(** The entry object the cache holds for a controller name and a
    serialised options string. *)
Definition entry_loc (st : State) (controllerName key : string) : option loc :=
  cachedResults st !! controllerName ≫= (.!! key).

Definition entry (st : State) (controllerName key : string) : option Entry :=
  entry_loc st controllerName key ≫= (heap st !!.).

End Cache.

Notation "'let!' x ':=' c 'in' k" := (bind c (λ x, k))
  (at level 10, x pattern, c at level 100, k at level 200).
Notation "c ';;' k" := (bind c (λ _, k))
  (at level 100, k at level 200, right associativity).

(** ** The event loop *)

Section EventLoop.

Context {Opts Controller Result : Type}.
Variable JSON_stringify : Opts → string.

Abbreviation State := (@State Opts Controller Result).
Abbreviation PromiseState := (@PromiseState Opts Controller Result).
Abbreviation M := (@M Opts Controller Result).

(** What can happen to the module state: somebody calls
    [returnCacheAndStartRefetch], or a pending promise settles. *)
Inductive event :=
| Call (controller : option Controller) (action : string) (apiOptions : Opts)
       (controllerName : string)
| Settle (p : PromiseId) (s : Settled Result).

Definition step (st : State) (ev : event) : option State :=
  match ev with
  | Call controller action apiOptions controllerName =>
      Some (returnCacheAndStartRefetch JSON_stringify controller action apiOptions
              controllerName st).1
  | Settle p s => settle p s st
  end.

Fixpoint run (evs : list event) (st : State) : option State :=
  match evs with
  | [] => Some st
  | ev :: evs => match step st ev with Some st' => run evs st' | None => None end
  end.

(** The states the module can be in: those a sequence of events leads to
    from the empty cache of line 184. *)
Definition reachable (st : State) : Prop := ∃ evs, run evs init = Some st.


(** Reading the promise table. *)
Definition pending (st : State) (p : PromiseId) : Prop :=
  ∃ ps, promises st !! p = Some ps ∧ status ps = None.

Definition fulfilled (st : State) (p : PromiseId) : Prop :=
  ∃ ps r, promises st !! p = Some ps ∧ status ps = Some (Fulfilled r).

Definition rejected (st : State) (p : PromiseId) : Prop :=
  ∃ ps e, promises st !! p = Some ps ∧ status ps = Some (Rejected e).

(** Promise [p] is the answer to a fetch made for this controller name
    and these serialised options, with this action. *)
Definition fetch_for (st : State) (p : PromiseId) (controllerName action key : string) : Prop :=
  ∃ ps, promises st !! p = Some ps ∧
        req_controllerName (request ps) = controllerName ∧
        req_action (request ps) = action ∧
        JSON_stringify (req_options (request ps)) = key.

(** The fetch was made on the path of lines 211-221, for a key without
    an entry (a cold fetch), or on the path of lines 200-207 (a refresh). *)
Definition cold_fetch (st : State) (p : PromiseId) : Prop :=
  ∃ ps cn k, promises st !! p = Some ps ∧ handlers ps = [ColdDone cn k].

Definition refresh_fetch (st : State) (p : PromiseId) : Prop :=
  ∃ ps cache, promises st !! p = Some ps ∧ handlers ps = [RefreshDone cache p].

(** ** Vocabulary of the proofs *)

(** The two halves of [returnCacheAndStartRefetch]: lines 189-194 make
    sure the two objects exist, lines 196-221 look the entry up and fetch. *)
Definition ensure_objects (controllerName action : string) : M unit :=
  let! o := read_controllerObject controllerName in
  (if o is None then new_controllerObject controllerName else ret tt);;
  let! a := read_property controllerName action in
  (if a is None
   then let! object := alloc empty_object in write_property controllerName action object
   else ret tt).

Definition lookup_or_fetch (controller : option Controller) (action : string)
    (apiOptions : Opts) (controllerName : string) : M (option PromiseId) :=
  let stringApiOptions := JSON_stringify apiOptions in
  let! cache := read_property controllerName stringApiOptions in
  match cache with
  | Some cache =>
      let! f := read_isFetching cache in
      (if negb (truthy f)
       then write_isFetching cache true;;
            let! promise := call_controller controller action apiOptions controllerName in
            promise_then promise (RefreshDone cache promise)
       else ret tt);;
      read_promise cache
  | None =>
      let! promise := call_controller controller action apiOptions controllerName in
      let! object := alloc {| isFetching := Some true; promise := Some promise |} in
      write_property controllerName stringApiOptions object;;
      promise_then promise (ColdDone controllerName stringApiOptions);;
      ret (Some promise)
  end.

(** The place in the cache a fetch was made for. *)
Definition key_of (ps : PromiseState) : string * string :=
  (req_controllerName (request ps), JSON_stringify (req_options (request ps))).

Definition loc_of (st : State) (ps : PromiseState) : option loc :=
  entry_loc st (key_of ps).1 (key_of ps).2.

(** What holds of every reachable state. *)
Record Inv (st : State) : Prop := {
  (* the cache names objects of the heap, each under one path only *)
  inv_valid : ∀ cn k ℓ, entry_loc st cn k = Some ℓ → ℓ < length (heap st);
  inv_inj : ∀ cn k cn' k' ℓ,
    entry_loc st cn k = Some ℓ → entry_loc st cn' k' = Some ℓ → cn = cn' ∧ k = k';
  (* every promise carries the one callback of the path that fetched it *)
  inv_handlers : ∀ p ps, promises st !! p = Some ps →
    ∃ ℓ, loc_of st ps = Some ℓ ∧
         (handlers ps = [ColdDone (key_of ps).1 (key_of ps).2] ∨
          handlers ps = [RefreshDone ℓ p]);
  (* a fetch in flight keeps the flag of its entry up *)
  inv_flag : ∀ p ps ℓ, promises st !! p = Some ps → status ps = None →
    loc_of st ps = Some ℓ → ∃ e, heap st !! ℓ = Some e ∧ isFetching e = Some true;
  (* and is the only one in flight for its entry *)
  inv_unique : ∀ p q ps qs, promises st !! p = Some ps → promises st !! q = Some qs →
    status ps = None → status qs = None → key_of ps = key_of qs → p = q;
  (* an entry holds a cold fetch or a fulfilled promise *)
  inv_stored : ∀ ℓ e p, heap st !! ℓ = Some e → promise e = Some p →
    cold_fetch st p ∨ fulfilled st p;
  (* an entry that is not fetching holds a fulfilled promise *)
  inv_idle : ∀ ℓ e p, heap st !! ℓ = Some e → truthy (isFetching e) = false →
    promise e = Some p → fulfilled st p;
  (* while a cold fetch is in flight the entry holds it *)
  inv_cold : ∀ p ps ℓ, promises st !! p = Some ps → status ps = None →
    handlers ps = [ColdDone (key_of ps).1 (key_of ps).2] → loc_of st ps = Some ℓ →
    ∃ e, heap st !! ℓ = Some e ∧ promise e = Some p;
  (* while a refresh is in flight the entry holds a fulfilled promise *)
  inv_refresh : ∀ p ps ℓ e q, promises st !! p = Some ps → status ps = None →
    handlers ps = [RefreshDone ℓ p] → heap st !! ℓ = Some e → promise e = Some q →
    fulfilled st q;
  (* the promise an entry holds answers a fetch made for that entry *)
  inv_key : ∀ cn k ℓ e p, entry_loc st cn k = Some ℓ → heap st !! ℓ = Some e →
    promise e = Some p → ∃ ps, promises st !! p = Some ps ∧ key_of ps = (cn, k)
}.

(** Nothing is in flight for the key, whose entry is [e]. *)
Definition quiet (st : State) (controllerName key : string) (e : Entry) : Prop :=
  entry st controllerName key = Some e ∧
  ∀ p ps, promises st !! p = Some ps → status ps = None →
          key_of ps ≠ (controllerName, key).

(** The event is a call for the key. *)
Definition call_for (controllerName key : string) (ev : event) : Prop :=
  match ev with
  | Call _ _ apiOptions controllerName' =>
      controllerName' = controllerName ∧ JSON_stringify apiOptions = key
  | Settle _ _ => False
  end.

(** The promise a fetch adds to the table, with the callback attached. *)
Definition new_promise (c : Controller) (a : string) (o : Opts) (cn : string)
    (cb : Callback) : PromiseState :=
  {| request := {| req_controller := c; req_action := a; req_options := o;
                   req_controllerName := cn |};
     status := None; handlers := [cb] |}.

(** The table of promises only grows, and a promise only gains a status. *)
Definition grows (st st' : State) : Prop :=
  ∀ p ps, promises st !! p = Some ps →
    ∃ ps', promises st' !! p = Some ps' ∧ handlers ps' = handlers ps ∧
           request ps' = request ps ∧ (∀ s, status ps = Some s → status ps' = Some s).

(** The effect of the callback of a fulfilled fetch on its entry. *)
Definition done_entry (cb : Callback) (e : Entry) : Entry :=
  match cb with
  | RefreshDone _ p => {| isFetching := Some false; promise := Some p |}
  | ColdDone _ _ => set_isFetching false e
  end.

End EventLoop.

(** ** The helper [get], lines 110-182 *)

(** [RESOURCES], lines 11-24. *)
Record Resource := { alias : string }.

Definition RESOURCES : gmap string Resource :=
  {[ "posts" := {| alias := "postsPublic" |};
     "tags" := {| alias := "tagsPublic" |};
     "pages" := {| alias := "pagesPublic" |};
     "authors" := {| alias := "authorsPublic" |} ]}.

(** [RESOURCES] is an object literal, so that [RESOURCES[resource]] also
    finds what every object inherits from [Object.prototype]: functions,
    and for [__proto__] the prototype object, all of them truthy and none
    with a property [alias]. *)
Definition Object_prototype : list string :=
  [ "constructor"; "hasOwnProperty"; "isPrototypeOf"; "propertyIsEnumerable";
    "toLocaleString"; "toString"; "valueOf"; "__proto__";
    "__defineGetter__"; "__defineSetter__"; "__lookupGetter__"; "__lookupSetter__" ].

Inductive Property (A : Type) :=
| Own (a : A)
| Inherited
| Undefined.
Arguments Own {A} a.
Arguments Inherited {A}.
Arguments Undefined {A}.

(** [RESOURCES[resource]] *)
Definition RESOURCES_get (resource : string) : Property Resource :=
  match RESOURCES !! resource with
  | Some r => Own r
  | None => if bool_decide (resource ∈ Object_prototype) then Inherited else Undefined
  end.

(** A property name made from a value that may be [undefined]. *)
Definition property_name (x : option string) : string := default "undefined" x.

Section Helper.

Context {Opts Controller Rows Pagination Data Self : Type}.
Variable JSON_stringify : Opts → string.

(** The hash of the helper call: [{}], the truthiness of its [id] and
    [slug], its [filter] when that is a string, and the assignment to
    [filter]. *)
Variable empty_hash : Opts.
Variables has_id has_slug : Opts → bool.
Variable filter_string : Opts → option string.
Variable set_filter : string → Opts → Opts.

(** The frame data: [{}], [_.get(data, 'root._locals.apiVersion')] and
    the [error] of the data. *)
Variable empty_data : Data.
Variable apiVersion_of : Data → option string.
Variable error_of : Data → option string.

(** [resolvePaths], lines 57-86, is a regular-expression replacement
    whose replacements are [jsonpath] queries; it is kept abstract. *)
Variable resolvePaths : Data → Self → string → string.

(** The collaborators of [../services/proxy]: the translated messages and
    the versioned API controllers. *)
Variable i18n_t : string → string.
Variable api : gmap string (gmap string Controller).

(** What the callback of [finally], lines 166-181, comes to in this run:
    it reads the clock and the configuration and, for a slow request,
    calls [logging[logLevel]]; it returns, or it throws. *)
Variable slow_helper_log : Completion unit.

(** What a controller resolves to: [result[resource]],
    [result.meta.pagination] and [result.pagination]. *)
Record ApiResult := {
  rows : gmap string Rows;
  meta_pagination : option Pagination;
  pagination : option Pagination
}.

Inductive BlockParam :=
| BP_rows (r : option Rows)
| BP_pagination (p : Pagination).

(** The frame made by [createFrame(options.data)]: a copy of the
    properties of [options.data], its [error] among them, with
    [options.data] as [_parent]. *)
Record Frame := { _parent : Data; error : option string }.

Definition createFrame (data : Data) : Frame :=
  {| _parent := data; error := error_of data |}.

Definition set_error (msg : string) (data : Frame) : Frame :=
  {| _parent := _parent data; error := Some msg |}.

(** The block functions of the template: [options.fn(result, {data,
    blockParams})] and [options.inverse(self, {data})] render a string or
    throw. *)
Definition BlockFn : Type := ApiResult → Frame → list BlockParam → Completion string.
Definition InverseFn : Type := Self → Frame → Completion string.

Record Options := {
  hash : option Opts;
  data : option Data;
  fn : option BlockFn;
  inverse : option InverseFn
}.

Definition empty_options : Options :=
  {| hash := None; data := None; fn := None; inverse := None |}.

(** Lines 39-47. *)
Definition isBrowse (options : Opts) : bool :=
  let browse := true in
  if has_id options || has_slug options then false else browse.

(** Lines 96-102. *)
Definition parseOptions (globals : Data) (data : Self) (options : Opts) : Opts :=
  match filter_string options with
  | Some filter => set_filter (resolvePaths globals data filter) options
  | None => options
  end.

(** [options.inverse(self, {data: data})]; calling [undefined] throws. *)
Definition call_inverse (options : Options) (self : Self) (data : Frame) : Completion string :=
  match inverse options with
  | Some f => f self data
  | None => Throw TypeError
  end.

(** The promise [get] returns: [Promise.resolve(v)], or the chain
    [.then(success).catch(error).finally(...)] on a promise of the
    cache, given by what it settles to once that promise has settled. *)
Inductive GetPromise :=
| Promise_resolve (v : option string)
| Promise_chain (source : PromiseId) (chain : Settled ApiResult → Settled string).

Definition settled_of (c : Completion string) : Settled string :=
  match c with
  | Normal v => Fulfilled v
  | Throw e => Rejected e
  end.

(** [p.then(f)], [p.catch(f)] and [p.finally(f)] on the settlement of
    [p].  The settlement passes through [finally] when its callback
    returns; when the callback throws, the promise is rejected with what
    it throws. *)
Definition then_ {A B} (s : Settled A) (f : A → Completion B) : Settled B :=
  match s with
  | Fulfilled a => match f a with Normal b => Fulfilled b | Throw e => Rejected e end
  | Rejected e => Rejected e
  end.

Definition catch_ {A} (s : Settled A) (f : Error → Completion A) : Settled A :=
  match s with
  | Fulfilled a => Fulfilled a
  | Rejected e => match f e with Normal b => Fulfilled b | Throw e' => Rejected e' end
  end.

Definition finally_ {A} (s : Settled A) (callback : Completion unit) : Settled A :=
  match callback with
  | Normal _ => s
  | Throw e => Rejected e
  end.

(** Lines 143-161.  The assignment to [result.pagination] is seen by the
    block function. *)
Definition success (resource : string) (f : BlockFn) (data : Frame) (result : ApiResult)
    : Completion string :=
  let blockParams := [BP_rows (rows result !! resource)] in
  match meta_pagination result with
  | Some pg =>
      let result := {| rows := rows result; meta_pagination := meta_pagination result;
                       pagination := Some pg |} in
      f result data (blockParams ++ [BP_pagination pg])
  | None => f result data blockParams
  end.

(** Lines 162-165.  [logging.error] is taken to return. *)
Definition error_handler (options : Options) (self : Self) (data : Frame) (err : Error)
    : Completion string :=
  match read_message err with
  | Normal message =>
      let data := set_error message data in
      call_inverse options self data
  | Throw e => Throw e
  end.

Definition lift {A} (c : Completion A) : @M Opts Controller ApiResult A :=
  λ st, (st, c).

(** [api[apiVersion][controllerName]]: [api] is an object, so that
    [api[apiVersion]] also finds what every object inherits, none of which
    has a property named like a controller; reading a property of
    [undefined] throws. *)
Definition api_controller (apiVersion controllerName : option string)
    : Completion (option Controller) :=
  match api !! property_name apiVersion with
  | Some version => Normal (version !! property_name controllerName)
  | None =>
      if bool_decide (property_name apiVersion ∈ Object_prototype) then Normal None
      else Throw TypeError
  end.

(** Lines 110-143.  The calls of [logging.warn] leave no trace in the model;
    [ghostGlobals], the frame without [_parent] and [root], only feeds
    [resolvePaths]. *)
Definition get (self : Self) (resource : string) (options : option Options)
    : @M Opts Controller ApiResult GetPromise :=
  let options := default empty_options options in
  let options_hash := default empty_hash (hash options) in
  let options_data := default empty_data (data options) in
  let data := createFrame options_data in
  let ghostGlobals := options_data in
  let apiVersion := apiVersion_of options_data in
  let apiOptions := options_hash in
  match fn options with
  | None =>
      let data := set_error (i18n_t "warnings.helpers.mustBeCalledAsBlock") data in
      ret (Promise_resolve None)
  | Some options_fn =>
      match RESOURCES_get resource with
      | Undefined =>
          let data := set_error (i18n_t "warnings.helpers.get.invalidResource") data in
          let! rendered := lift (call_inverse options self data) in
          ret (Promise_resolve (Some rendered))
      | found =>
          let controllerName := if found is Own r then Some (alias r) else None in
          let! controller := lift (api_controller apiVersion controllerName) in
          let action := if isBrowse apiOptions then "browse" else "read" in
          let apiOptions := parseOptions ghostGlobals self apiOptions in
          let! source := returnCacheAndStartRefetch JSON_stringify controller action
                           apiOptions (property_name controllerName) in
          match source with
          | None => throw TypeError
          | Some source =>
              ret (Promise_chain source
                     (λ s, finally_ (catch_ (then_ s (success resource options_fn data))
                                       (error_handler options self data))
                             slow_helper_log))
          end
      end
  end.

(** The frame [get] works on. *)
Definition frame_of (options : option Options) : Frame :=
  createFrame (default empty_data (data (default empty_options options))).

(** What the catch handler of the chain is called with: the reason the
    promise of the cache is rejected with, or what the success handler
    throws. *)
Definition reaches_catch (resource : string) (options : option Options)
    (s : Settled ApiResult) (err : Error) : Prop :=
  s = Rejected err ∨
  ∃ result f, s = Fulfilled result ∧ fn (default empty_options options) = Some f ∧
              success resource f (frame_of options) result = Throw err.

(** What the promise [get] returned settles to, given the settlement of
    the promise of the cache it hangs on. *)
Definition get_settles (g : GetPromise) (s : Settled ApiResult) : Settled (option string) :=
  match g with
  | Promise_resolve v => Fulfilled v
  | Promise_chain _ chain =>
      match chain s with
      | Fulfilled v => Fulfilled (Some v)
      | Rejected e => Rejected e
      end
  end.

End Helper.

(** ** A concrete instance

    Three option hashes, two of which have the same JSON text: [Infinity]
    is truthy and serialises to [null]. *)

Inductive DemoOptions :=
| NoOptions
| IdNull
| IdInfinity.

Definition dq : string := String (Ascii.ascii_of_nat 34) EmptyString.

Definition demo_stringify (o : DemoOptions) : string :=
  match o with
  | NoOptions => "{}"
  | IdNull | IdInfinity => "{" +:+ dq +:+ "id" +:+ dq +:+ ":null}"
  end.

Definition demo_has_id (o : DemoOptions) : bool :=
  match o with
  | IdInfinity => true
  | _ => false
  end.

Definition DemoResult : Type := @ApiResult string nat.

Definition demo_result (body : string) : DemoResult :=
  {| rows := {[ "posts" := body ]}; meta_pagination := Some 1; pagination := None |}.

Definition DemoState : Type := @State DemoOptions unit DemoResult.

Definition demo_call (controller : option unit) (action : string) (o : DemoOptions)
    (controllerName : string) : DemoState → DemoState * Completion (option nat) :=
  returnCacheAndStartRefetch demo_stringify controller action o controllerName.


Definition demo_settle (p : nat) (s : Settled DemoResult) (st : DemoState) : DemoState :=
  default st (settle p s st).

Definition boom : Error := ErrorObject "boom".

(** The first call for [posts], its fetch in flight. *)
Definition demo_cold : DemoState :=
  (demo_call (Some tt) "browse" NoOptions "postsPublic" init).1.

(** The first fetch has fulfilled. *)
Definition demo_idle : DemoState :=
  demo_settle 0 (Fulfilled (demo_result "first")) demo_cold.

(** A second call has started a refresh. *)
Definition demo_refreshing : DemoState :=
  (demo_call (Some tt) "browse" NoOptions "postsPublic" demo_idle).1.

(** The first fetch has failed. *)
Definition demo_failed : DemoState :=
  demo_settle 0 (Rejected boom) demo_cold.

Definition demo_api : gmap string (gmap string unit) :=
  {[ "v2" := {[ "postsPublic" := tt; "tagsPublic" := tt;
                "pagesPublic" := tt; "authorsPublic" := tt ]} ]}.

(** A helper call [{{#get resource ...}}] under API version [v2]: the
    frame data is its API version, the block renders the rows it is given
    and the inverse block is given as an argument. *)
Definition DemoHelperOptions : Type :=
  @Options DemoOptions string nat (option string) unit.

Definition demo_fn : @BlockFn string nat (option string) :=
  λ result _ _, Normal (default "" (rows result !! "posts")).

Definition demo_options (o : DemoOptions)
    (inv : option (@InverseFn (option string) unit)) : DemoHelperOptions :=
  {| hash := Some o; data := Some (Some "v2"); fn := Some demo_fn; inverse := inv |}.

Definition demo_get_logging (log : Completion unit) (resource : string)
    (options : option DemoHelperOptions)
    : DemoState → DemoState * Completion (@GetPromise string nat) :=
  get demo_stringify NoOptions demo_has_id (λ _, false) (λ _, None) (λ _ o, o)
    None id (λ _, None) (λ _ _ filter, filter) id demo_api log tt resource options.

(** The same when the callback of [finally] returns. *)
Definition demo_get (resource : string) (options : option DemoHelperOptions)
    : DemoState → DemoState * Completion (@GetPromise string nat) :=
  demo_get_logging (Normal tt) resource options.

(** An inverse block that renders the error of the frame, and one that
    throws. *)
Definition inverse_renders : @InverseFn (option string) unit :=
  λ _ frame, Normal (default "" (error frame)).

Definition inverse_throws : @InverseFn (option string) unit :=
  λ _ _, Throw boom.

(** A helper call on a frame without API version. *)
Definition demo_options_unversioned : DemoHelperOptions :=
  {| hash := None; data := None; fn := Some demo_fn; inverse := Some inverse_renders |}.

(** The promise the helper returns for [{{#get "posts"}}] on the empty
    cache, with an inverse block that renders. *)
Definition demo_promise : @GetPromise string nat :=
  match (demo_get "posts" (Some (demo_options NoOptions (Some inverse_renders))) init).2 with
  | Normal g => g
  | Throw _ => Promise_resolve None
  end.

(** ** More vocabulary for the cache *)

Section CacheVocabulary.

Context {Opts Controller Result : Type}.
Variable JSON_stringify : Opts → string.

Abbreviation State := (@State Opts Controller Result).
Abbreviation PromiseState := (@PromiseState Opts Controller Result).

(** An event without a failure, in the state it happens in: the call
    returns, it does not throw; the promise fulfils. *)
Definition clean (st : State) (ev : @event Opts Controller Result) : Prop :=
  match ev with
  | Call controller action apiOptions controllerName =>
      ∃ r, (returnCacheAndStartRefetch JSON_stringify controller action apiOptions
              controllerName st).2 = Normal r
  | Settle _ s => ∃ r, s = Fulfilled r
  end.

(** A run without a failure. *)
Fixpoint all_clean (evs : list (@event Opts Controller Result)) (st : State) : Prop :=
  match evs with
  | [] => True
  | ev :: evs =>
      clean st ev ∧
      match step JSON_stringify st ev with
      | Some st' => all_clean evs st'
      | None => True
      end
  end.

(** The calls among the events. *)
Fixpoint count_calls (evs : list (@event Opts Controller Result)) : nat :=
  match evs with
  | [] => 0
  | Call _ _ _ _ :: evs => S (count_calls evs)
  | Settle _ _ :: evs => count_calls evs
  end.

(** Every raised flag has its fetch in flight. *)
Definition Live (st : State) : Prop :=
  ∀ cn k e, entry st cn k = Some e → isFetching e = Some true →
    ∃ p ps, promises st !! p = Some ps ∧ status ps = None ∧
            key_of JSON_stringify ps = (cn, k).

Definition unfulfilled (ps : PromiseState) : Prop :=
  ∀ r, status ps ≠ Some (Fulfilled r).

(** At most one fetch of a key has not fulfilled, and none while the flag
    of the entry is down. *)
Record Tidy (st : State) : Prop := {
  tidy_one : ∀ p q ps qs, promises st !! p = Some ps → promises st !! q = Some qs →
    unfulfilled ps → unfulfilled qs →
    key_of JSON_stringify ps = key_of JSON_stringify qs → p = q;
  tidy_idle : ∀ cn k e p ps, entry st cn k = Some e → truthy (isFetching e) = false →
    promises st !! p = Some ps → key_of JSON_stringify ps = (cn, k) →
    ∃ r, status ps = Some (Fulfilled r)
}.

(** The calls the helper makes have one of its two actions (line 137). *)
Definition helper_call (ev : @event Opts Controller Result) : Prop :=
  match ev with
  | Call _ action _ _ => action = "browse" ∨ action = "read"
  | Settle _ _ => True
  end.

(** Only the objects made for the actions hold no promise. *)
Definition Filled (st : State) : Prop :=
  ∀ cn k e, entry st cn k = Some e → promise e = None → k = "browse" ∨ k = "read".

End CacheVocabulary.

(** * The mobiledoc code card, [cards/code.js] lines 5-69 *)

(** ** Strings of JavaScript *)

(** A string is truthy unless it is empty; [undefined] is falsy. *)
Definition truthy_string (x : option string) : bool :=
  match x with
  | Some s => negb (String.eqb s "")
  | None => false
  end.

(** The letters [A]-[Z] in lower case; the other characters as they are. *)
Definition lower_ascii (c : Ascii.ascii) : Ascii.ascii :=
  let n := Ascii.nat_of_ascii c in
  if (65 <=? n) && (n <=? 90) then Ascii.ascii_of_nat (n + 32) else c.

Fixpoint to_lower (s : string) : string :=
  match s with
  | EmptyString => EmptyString
  | String c s => String (lower_ascii c) (to_lower s)
  end.

Module Card.

(** The payload of the card: [code], [language] and [caption], each a
    string or [undefined]. *)
Record Payload := {
  code : option string;
  language : option string;
  caption : option string
}.

(** The nodes [opts.env.dom] builds: elements with their attributes and
    children, and sections of raw HTML holding the value they were made
    from. *)
#[warnings="-register-all"]
Inductive Node :=
| Element (tagName : string) (attributes : list (string * string)) (childNodes : list Node)
| RawHTMLSection (html : option string).

Definition createElement (tagName : string) : Node := Element tagName [] [].

(** [element.setAttribute(name, value)] replaces the value of an attribute
    the element has and adds the attribute otherwise. *)
Fixpoint set_attribute (name value : string) (attrs : list (string * string))
    : list (string * string) :=
  match attrs with
  | [] => [(name, value)]
  | (n, v) :: attrs =>
      if String.eqb n name then (n, value) :: attrs
      else (n, v) :: set_attribute name value attrs
  end.

Definition setAttribute (name value : string) (node : Node) : Node :=
  match node with
  | Element tag attrs children => Element tag (set_attribute name value attrs) children
  | RawHTMLSection html => RawHTMLSection html
  end.

Definition appendChild (child node : Node) : Node :=
  match node with
  | Element tag attrs children => Element tag attrs (children ++ [child])
  | RawHTMLSection html => RawHTMLSection html
  end.

(** What [render] returns: the empty string, or a node. *)
Inductive Rendered :=
| Text (s : string)
| Dom (node : Node).

(** What [hljs.highlight] and [hljs.highlightAuto] return. *)
Record HighlightResult := { h_language : option string; h_value : string }.

(** [/^(no-?highlight|plain|text)$/i.test(lang)]: the regular expression
    is tested on the string form of [lang], ["undefined"] when there is no
    language, without regard to the case of ASCII letters. *)
Definition noHighlightRe (lang : option string) : bool :=
  bool_decide (to_lower (default "undefined" lang)
               ∈ ["nohighlight"; "no-highlight"; "plain"; "text"]).


Section Render.

(** The collaborators: whether [hljs] knows the language, its two
    highlighters, and [_.escape]. *)
Variable getLanguage : option string → bool.
Variable highlight : option string → string → HighlightResult.
Variable highlightAuto : string → HighlightResult.
Variable escape : string → string.

(** Lines 20-36: the payload after highlighting or escaping. *)
Definition process (payload : Payload) : Payload :=
  let lang := language payload in
  let text := default "" (code payload) in
  if getLanguage lang then
    let result := highlight lang text in
    {| language := h_language result; code := Some (h_value result);
       caption := caption payload |}
  else if negb (noHighlightRe lang) then
    {| language := language payload; code := Some (escape text);
       caption := caption payload |}
  else
    let result := highlightAuto text in
    {| language := h_language result; code := Some (h_value result);
       caption := caption payload |}.

(** Lines 8-58.  The payload is an object of the caller, which [render]
    writes to: the payload it leaves behind is returned with the node. *)
Definition render (payload : Payload) : Payload * Rendered :=
  if negb (truthy_string (code payload)) then (payload, Text "")
  else
    let pre := createElement "pre" in
    let code_element := createElement "code" in
    let pre := setAttribute "class" "blog-code" pre in
    let payload := process payload in
    let code_element :=
      if truthy_string (language payload)
      then setAttribute "class" ("language-" +:+ default "" (language payload)) code_element
      else code_element in
    let code_element := appendChild (RawHTMLSection (code payload)) code_element in
    let pre := appendChild code_element pre in
    if truthy_string (caption payload) then
      let figure := createElement "figure" in
      let figure := setAttribute "class" "kg-card kg-code-card" figure in
      let figure := appendChild pre figure in
      let figcaption := createElement "figcaption" in
      let figcaption := appendChild (RawHTMLSection (caption payload)) figcaption in
      let figure := appendChild figcaption figure in
      (payload, Dom figure)
    else (payload, Dom pre).

End Render.

Section Urls.

(** [urlUtils.htmlAbsoluteToRelative] and [urlUtils.htmlRelativeToAbsolute],
    with the options they are passed. *)
Context {UrlOptions : Type}.
Variable htmlAbsoluteToRelative : string → UrlOptions → string.
Variable htmlRelativeToAbsolute : string → UrlOptions → string.




End Urls.

End Card.

(** * The Markdown converter: heading ids (the [namedHeaders] plugin) *)

From stdpp Require Import pretty.

Module Markdown.

(** [\w] of a regular expression: an ASCII letter, a digit or [_]. *)
Definition is_word (c : Ascii.ascii) : bool :=
  let n := Ascii.nat_of_ascii c in
  ((65 <=? n) && (n <=? 90)) || ((97 <=? n) && (n <=? 122)) ||
  ((48 <=? n) && (n <=? 57)) || (n =? 95).

(** A character a slug is made of: a lower-case letter, a digit or [_]. *)
Definition is_slug_char (c : Ascii.ascii) : bool :=
  let n := Ascii.nat_of_ascii c in
  ((97 <=? n) && (n <=? 122)) || ((48 <=? n) && (n <=? 57)) || (n =? 95).

(** [s.replace(/[^\w]/g, '')] *)
Fixpoint keep_word (s : string) : string :=
  match s with
  | EmptyString => EmptyString
  | String c s => if is_word c then String c (keep_word s) else keep_word s
  end.

Fixpoint all_chars (P : Ascii.ascii → bool) (s : string) : bool :=
  match s with
  | EmptyString => true
  | String c s => P c && all_chars P s
  end.

(** What the last lines of [heading_open] do is left to the renderer;
    the model stops when the tokens have their id. *)
Inductive Outcome :=
| Rendered
| Threw (e : Error)
| Unmodelled.

(** A value held by the table [usedHeaders]: a number, here a count, or
    a string. *)
Inductive Value :=
| Num (n : N)
| Str (s : string).

(** The value is truthy: neither [0] nor the empty string. *)
Definition truthy_value (v : Value) : bool :=
  match v with
  | Num n => negb (n =? 0)%N
  | Str s => negb (String.eqb s "")
  end.

(** [v + 1]: a sum for a number, a concatenation for a string.  The sum
    is exact for a count below 2^53; the model has no result beyond. *)
Definition add_one (v : Value) : option Value :=
  match v with
  | Num n => if (n <? 2 ^ 53)%N then Some (Num (n + 1)) else None
  | Str s => Some (Str (s +:+ "1"))
  end.

(** The value as a string, as [slug += v] appends it: a count up to 2^53
    is printed in decimal. *)
Definition to_text (v : Value) : string :=
  match v with
  | Num n => pretty n
  | Str s => s
  end.

(** What a property that the table does not have itself reads as, for the
    two slugs that name a property every object inherits, and how that
    value is printed: [usedHeaders.constructor] is the function [Object]
    and [usedHeaders.__proto__] is [Object.prototype].  The other names
    every object inherits have an upper-case letter and are no slug. *)
Definition Object_text : string := "function Object() { [native code] }".
Definition Object_prototype_text : string := "[object Object]".

(** [slugify], the function of the plugin.  [usedHeaders] maps a slug to
    the number of times it was used.

    For the slug [constructor] on a table without it, the test finds the
    inherited function, [+= 1] appends [1] to its text and stores the
    string in the table, and the string is appended to the slug.  For the
    slug [__proto__] the test finds the prototype; the assignment of a
    string to [__proto__] does nothing, and the text of the prototype is
    appended to the slug. *)
Definition slugify (inputString : string) (usedHeaders : gmap string Value)
    : option (string * gmap string Value) :=
  let slug := to_lower (keep_word inputString) in
  match usedHeaders !! slug with
  | Some v =>
      if truthy_value v then
        match add_one v with
        | Some v => Some (slug +:+ to_text v, <[slug := v]> usedHeaders)
        | None => None
        end
      else Some (slug, usedHeaders)
  | None =>
      if String.eqb slug "constructor" then
        let v := Str (Object_text +:+ "1") in
        Some (slug +:+ to_text v, <[slug := v]> usedHeaders)
      else if String.eqb slug "__proto__" then
        Some (slug +:+ Object_prototype_text, usedHeaders)
      else Some (slug, usedHeaders)
  end.

(** [slugify] on the titles of a document in turn, all with one table. *)
Fixpoint slugify_all (titles : list string) (usedHeaders : gmap string Value)
    : option (list string * gmap string Value) :=
  match titles with
  | [] => Some ([], usedHeaders)
  | title :: titles =>
      match slugify title usedHeaders with
      | Some (slug, usedHeaders) =>
          match slugify_all titles usedHeaders with
          | Some (slugs, usedHeaders) => Some (slug :: slugs, usedHeaders)
          | None => None
          end
      | None => None
      end
  end.

(** A token of markdown-it: its attributes, [null] or a list of pairs, and
    its children, [null] or the tokens of which the [content] is read. *)
Record Token := {
  attrs : option (list (string * string));
  children : option (list string)
}.

(** The rule [heading_open] up to the call of the renderer: the token at
    [idx] gets its attributes and the id made of the contents of the
    children of the next token.  [slugify] has a result on the empty
    table, so that [Unmodelled] is never the outcome. *)
Definition heading_open (tokens : list Token) (idx : nat) : list Token * Outcome :=
  let usedHeaders : gmap string Value := ∅ in
  match tokens !! idx with
  | None => (tokens, Threw TypeError)
  | Some token =>
      let token := {| attrs := Some (default [] (attrs token));
                      children := children token |} in
      let tokens := <[idx := token]> tokens in
      match tokens !! (idx + 1) ≫= children with
      | None => (tokens, Threw TypeError)
      | Some contents =>
          let title := foldl (λ acc t, acc +:+ t) "" contents in
          match slugify title usedHeaders with
          | None => (tokens, Unmodelled)
          | Some (slug, _) =>
              let token := {| attrs := Some (default [] (attrs token) ++ [("id", slug)]);
                              children := children token |} in
              (<[idx := token]> tokens, Rendered)
          end
      end
  end.

End Markdown.

(** * The single sign-on adapter: [parser] and [signIn] *)

Module Login.

(** An error object, with the name of its class and its message. *)
Record Exception := { name : string; message : string }.

(** [new Error(message)] *)
Definition new_Error (message : string) : Exception :=
  {| name := "Error"; message := message |}.

(** [String(err)] for an error object, as [Error.prototype.toString]
    makes it. *)
Definition to_string (err : Exception) : string :=
  if String.eqb (name err) "" then message err
  else if String.eqb (message err) "" then name err
  else name err +:+ ": " +:+ message err.

(** How a call, or the promise it returns once awaited, comes out. *)
Inductive Try (A : Type) :=
| Returns (a : A)
| Throws (err : Exception).
Arguments Returns {A} a.
Arguments Throws {A} err.

(** [body.trap_id]: the [err] the parser leaves and the [user] that
    [signIn] returns. *)
Record TrapId (V : Type) := { err : option string; user : option V }.
Arguments err {V} _.
Arguments user {V} _.

Record Body (V : Type) := { trap_id : option (TrapId V) }.
Arguments trap_id {V} _.

Section Adapter.

(** User and role models, the ids of users, and the values a client can
    send as [body.trap_id.user]. *)
Context {User Role Id V : Type}.

(** The payload of a verified token, taken to carry a string [id] and a
    string [email]. *)
Record Claims := { claim_id : string; claim_email : string }.

(** The object and the options passed to [models.User.add] or
    [models.User.edit]. *)
Record UserData := {
  data_email : string;
  data_name : string;
  data_slug : string;
  data_password : string;
  data_roles : list (option Role)
}.

Record EditOptions := { options_id : option Id; options_internal : bool }.

(** The calls made on the models, in the order they are made. *)
Inductive Query :=
| FindUser (name : string)
| FindRole (name : string)
| EditUser (data : UserData) (options : EditOptions)
| AddUser (data : UserData) (options : EditOptions).

(** The request: the cookie [traP_token], [req.user] and [req.body]
    ([req.cookies] is taken to be an object). *)
Record Request := {
  traP_token : option string;
  req_user : option User;
  req_body : option (Body V)
}.

(** The collaborators: the list of administrators, the verification of
    the token, the models, the translations and how a string is put in
    lower case. *)
Variable ADMINS : list string.
Variable verify : string → Try Claims.
Variable findUser : string → Try (option User).
Variable findRole : string → Try (option Role).
Variable editUser : UserData → EditOptions → Try User.
Variable addUser : UserData → EditOptions → Try User.
Variable user_id : User → Id.
Variable isLocked : User → bool.
Variable isInactive : User → bool.
Variable i18n_t : string → string.
Variable toLowerCase : string → string.

(** [Promise.all] rejects with the rejection that comes first: when both
    lookups fail, whether that of the role fails before that of the
    user. *)
Variable role_fails_first : bool.

(** The body of the [try] block of [parser]: the queries made and the user
    to put in [req.user], or the error caught.  [password] is what
    [randomPassword] returns in this run. *)
Definition authenticate (req : Request) (password : string) : list Query * Try User :=
  let rawToken := traP_token req in
  if negb (truthy_string rawToken) then ([], Throws (new_Error "No token"))
  else
    match verify (default "" rawToken) with
    | Throws err => ([], Throws err)
    | Returns claims =>
        let name := claim_id claims in
        let email := claim_email claims in
        let roleName :=
          if bool_decide (name ∈ ADMINS) then "Administrator" else "Author" in
        let queries := [FindUser name; FindRole roleName] in
        match findUser name, findRole roleName with
        | Throws err, Returns _ => (queries, Throws err)
        | Returns _, Throws err => (queries, Throws err)
        | Throws user_err, Throws role_err =>
            (queries, Throws (if role_fails_first then role_err else user_err))
        | Returns user, Returns role =>
            let data :=
              {| data_email := email; data_name := name; data_slug := toLowerCase name;
                 data_password := password; data_roles := [role] |} in
            let options :=
              {| options_id := user_id <$> user; options_internal := true |} in
            let queries :=
              queries ++ [if user is Some _ then EditUser data options
                          else AddUser data options] in
            match (if user is Some _ then editUser else addUser) data options with
            | Throws err => (queries, Throws err)
            | Returns modifiedUser =>
                if isLocked modifiedUser then
                  (queries, Throws (new_Error (i18n_t "errors.models.user.accountLocked")))
                else if isInactive modifiedUser then
                  (queries,
                   Throws (new_Error (i18n_t "errors.models.user.accountSuspended")))
                else (queries, Returns modifiedUser)
            end
        end
    end.

(** What [parser] comes to: [next()] is called with the request as it
    then is, or the promise of [parser] rejects and [next] is not
    called. *)
Inductive Outcome :=
| Next (req : Request)
| Rejected.

(** [parser], without its unused [res]. *)
Definition parser (req : Request) (password : string) : list Query * Outcome :=
  match authenticate req password with
  | (queries, Returns modifiedUser) =>
      (queries, Next {| traP_token := traP_token req; req_user := Some modifiedUser;
                        req_body := req_body req |})
  | (queries, Throws err) =>
      match req_body req with
      | Some _ =>
          let body :=
            {| trap_id := Some {| err := Some ("traP ID " +:+ to_string err);
                                  user := None |} |} in
          (queries, Next {| traP_token := traP_token req; req_user := req_user req;
                            req_body := Some body |})
      | None => (queries, Rejected)
      end
  end.

(** What the promise of [signIn] settles to. *)
Inductive SignIn :=
| Resolves (user : option V)
| RejectsWith (err : Exception)
| RejectsTypeError.

Definition signIn (body : Body V) : SignIn :=
  match trap_id body with
  | None => RejectsTypeError
  | Some trap_id =>
      if truthy_string (err trap_id) then RejectsWith (new_Error (default "" (err trap_id)))
      else Resolves (user trap_id)
  end.

End Adapter.

End Login.

(** * Instances for the card, the heading ids and the adapter *)

(** A highlighter that knows [js] only, and an escape of [<] and [&]. *)
Definition demo_getLanguage (lang : option string) : bool :=
  bool_decide (lang = Some "js").

Definition demo_highlight (lang : option string) (text : string) : Card.HighlightResult :=
  {| Card.h_language := lang; Card.h_value := "<span>" +:+ text +:+ "</span>" |}.

Definition demo_highlightAuto (text : string) : Card.HighlightResult :=
  {| Card.h_language := Some "auto"; Card.h_value := text |}.

Fixpoint demo_escape (s : string) : string :=
  match s with
  | EmptyString => EmptyString
  | String c s =>
      (if Ascii.eqb c (Ascii.ascii_of_nat 60) then "&lt;"
       else if Ascii.eqb c (Ascii.ascii_of_nat 38) then "&amp;"
       else String c EmptyString) +:+ demo_escape s
  end.

Definition demo_payload : Card.Payload :=
  {| Card.code := Some "a<b"; Card.language := Some "elvish";
     Card.caption := Some "https://blog.example/about" |}.




(** The adapter with one administrator, [alice]; the token [good] is the
    one that verifies, for the user [Alice], whose account exists and is
    locked; every other user is added as user 8. *)
Definition DemoUser : Type := nat * bool.

Definition demo_ADMINS : list string := ["alice"].

Definition demo_verify (token : string) : Login.Try Login.Claims :=
  if String.eqb token "good"
  then Login.Returns {| Login.claim_id := "Alice"; Login.claim_email := "alice@example.com" |}
  else if String.eqb token "guest"
  then Login.Returns {| Login.claim_id := "bob"; Login.claim_email := "bob@example.com" |}
  else Login.Throws {| Login.name := "JsonWebTokenError"; Login.message := "jwt malformed" |}.

Definition demo_findUser (name : string) : Login.Try (option DemoUser) :=
  Login.Returns (if String.eqb name "Alice" then Some (7, true) else None).

Definition demo_findRole (name : string) : Login.Try (option string) :=
  Login.Returns (Some name).

Definition demo_editUser (data : @Login.UserData string) (options : @Login.EditOptions nat)
    : Login.Try DemoUser :=
  Login.Returns (default 0 (Login.options_id options), true).

Definition demo_addUser (data : @Login.UserData string) (options : @Login.EditOptions nat)
    : Login.Try DemoUser :=
  Login.Returns (8, false).

Definition demo_parser (req : @Login.Request DemoUser string) (password : string)
    : list (@Login.Query string nat) * @Login.Outcome DemoUser string :=
  Login.parser demo_ADMINS demo_verify demo_findUser demo_findRole demo_editUser
    demo_addUser fst snd (λ _, false) id to_lower false req password.

Definition demo_request (token : option string) : @Login.Request DemoUser string :=
  {| Login.traP_token := token; Login.req_user := None;
     Login.req_body := Some {| Login.trap_id := None |} |}.

(** The chain of [demo_promise] on the promise of the cache. *)
Definition demo_chain : Settled DemoResult → Settled string :=
  match demo_promise with
  | Promise_chain _ chain => chain
  | Promise_resolve _ => λ _, Fulfilled ""
  end.

(** * Facts about the cache *)

Section CacheFacts.
Context {Opts Controller Result : Type}.
Variable JSON_stringify : Opts → string.
Abbreviation State := (@State Opts Controller Result).
Abbreviation PromiseState := (@PromiseState Opts Controller Result).
Implicit Types (st : State) (cn k a : string) (ℓ : loc) (p q : PromiseId).

(** Running the state-passing code: unfold the operations down to the
    lookups they branch on. *)
Ltac run_code :=
  unfold entry_loc, returnCacheAndStartRefetch, ensure_objects, lookup_or_fetch, bind, ret,
    throw, read_controllerObject, new_controllerObject, read_property, write_property,
    alloc, read_isFetching, read_promise, write_isFetching, call_controller, promise_then;
  simpl.

(** *** The two halves of a call *)

Lemma rcasr_split c a o cn st :
  returnCacheAndStartRefetch JSON_stringify c a o cn st =
  lookup_or_fetch JSON_stringify c a o cn (ensure_objects cn a st).1.
Proof.
  run_code.
  destruct (cachedResults st !! cn) as [m|] eqn:Hm; simpl.
  - rewrite Hm; simpl. destruct (m !! a) eqn:Ha; simpl; reflexivity.
  - rewrite lookup_insert_eq. simpl. rewrite lookup_empty. simpl. reflexivity.
Qed.

Lemma ensure_objects_present cn a st :
  is_Some (entry_loc st cn a) → (ensure_objects cn a st).1 = st.
Proof.
  run_code.
  intros [ℓ H]. simpl.
  destruct (cachedResults st !! cn) as [m|] eqn:Hm; simpl in *; [|done].
  rewrite Hm. simpl. rewrite H. done.
Qed.

Lemma ensure_objects_absent cn a st :
  entry_loc st cn a = None →
  let st' := (ensure_objects cn a st).1 in
  heap st' = heap st ++ [empty_object] ∧ promises st' = promises st ∧
  ∀ cn' k', entry_loc st' cn' k' =
            if decide (cn' = cn ∧ k' = a) then Some (length (heap st)) else entry_loc st cn' k'.
Proof.
  run_code.
  intros H. simpl.
  destruct (cachedResults st !! cn) as [m|] eqn:Hm; simpl in *.
  - rewrite Hm. simpl. rewrite H. simpl. split; [done|]. split; [done|].
    intros cn' k'. case_decide as Hd.
    + destruct Hd as [-> ->]. rewrite lookup_alter_eq, Hm. simpl. by rewrite lookup_insert_eq.
    + destruct (decide (cn' = cn)) as [->|Hne].
      * rewrite lookup_alter_eq, Hm. simpl. rewrite lookup_insert_ne; [done|]. intros ->. by apply Hd.
      * by rewrite lookup_alter_ne.
  - rewrite lookup_insert_eq. simpl. rewrite lookup_empty. simpl.
    split; [done|]. split; [done|].
    intros cn' k'. case_decide as Hd.
    + destruct Hd as [-> ->]. rewrite lookup_alter_eq, lookup_insert_eq. simpl. by rewrite lookup_insert_eq.
    + destruct (decide (cn' = cn)) as [->|Hne].
      * rewrite lookup_alter_eq, lookup_insert_eq, Hm. simpl. rewrite lookup_insert_ne; [done|]. intros ->. by apply Hd.
      * rewrite lookup_alter_ne, lookup_insert_ne; done.
Qed.

Lemma ensure_objects_controller cn a st :
  is_Some (cachedResults (ensure_objects cn a st).1 !! cn).
Proof.
  run_code.
  destruct (cachedResults st !! cn) as [m|] eqn:Hm; simpl.
  - rewrite Hm; simpl. destruct (m !! a) eqn:Ha; simpl.
    + by rewrite Hm.
    + rewrite lookup_alter_eq, Hm. done.
  - rewrite lookup_insert_eq. simpl. rewrite lookup_empty. simpl.
    rewrite lookup_alter_eq, lookup_insert_eq. done.
Qed.

Lemma alter_app_last {A} (f : A → A) (l : list A) (x : A) :
  alter f (length l) (l ++ [x]) = l ++ [f x].
Proof.
  induction l as [|y l IH]; simpl; [done|]. f_equal. exact IH.
Qed.

Lemma lookup_or_fetch_cold c a o cn st :
  entry_loc st cn (JSON_stringify o) = None →
  is_Some (cachedResults st !! cn) →
  let r := lookup_or_fetch JSON_stringify (Some c) a o cn st in
  let p := length (promises st) in
  r.2 = Normal (Some p) ∧
  heap r.1 = heap st ++ [{| isFetching := Some true; promise := Some p |}] ∧
  promises r.1 = promises st ++ [new_promise c a o cn (ColdDone cn (JSON_stringify o))] ∧
  ∀ cn' k', entry_loc r.1 cn' k' =
            if decide (cn' = cn ∧ k' = JSON_stringify o) then Some (length (heap st))
            else entry_loc st cn' k'.
Proof.
  run_code.
  intros H [m Hm]. simpl. rewrite H. simpl.
  split; [done|]. split; [done|]. split.
  { by rewrite alter_app_last. }
  intros cn' k'. rewrite Hm in H. simpl in H. case_decide as Hd.
  - destruct Hd as [-> ->]. rewrite lookup_alter_eq, Hm. simpl. by rewrite lookup_insert_eq.
  - destruct (decide (cn' = cn)) as [->|Hne].
    + rewrite lookup_alter_eq, Hm. simpl. rewrite lookup_insert_ne; [done|]. intros <-. by apply Hd.
    + by rewrite lookup_alter_ne.
Qed.

Lemma lookup_or_fetch_cold_throw a o cn st :
  entry_loc st cn (JSON_stringify o) = None →
  lookup_or_fetch JSON_stringify None a o cn st = (st, Throw TypeError).
Proof.
  run_code.
  intros H. simpl. by rewrite H.
Qed.

Lemma lookup_or_fetch_fetching c a o cn st ℓ :
  entry_loc st cn (JSON_stringify o) = Some ℓ →
  truthy (heap st !! ℓ ≫= isFetching) = true →
  lookup_or_fetch JSON_stringify c a o cn st = (st, Normal (heap st !! ℓ ≫= promise)).
Proof.
  run_code.
  intros H Hf. simpl. rewrite H. simpl. by rewrite Hf.
Qed.

Lemma lookup_or_fetch_refresh c a o cn st ℓ :
  entry_loc st cn (JSON_stringify o) = Some ℓ →
  truthy (heap st !! ℓ ≫= isFetching) = false →
  let r := lookup_or_fetch JSON_stringify (Some c) a o cn st in
  let p := length (promises st) in
  r.2 = Normal (heap st !! ℓ ≫= promise) ∧
  cachedResults r.1 = cachedResults st ∧
  heap r.1 = alter (set_isFetching true) ℓ (heap st) ∧
  promises r.1 = promises st ++ [new_promise c a o cn (RefreshDone ℓ p)].
Proof.
  run_code.
  intros H Hf. simpl. rewrite H. simpl. rewrite Hf. simpl.
  split.
  { f_equal. rewrite list_lookup_alter. rewrite decide_True by done.
    destruct (heap st !! ℓ); reflexivity. }
  split; [done|]. split; [done|]. by rewrite alter_app_last.
Qed.

Lemma lookup_or_fetch_refresh_throw a o cn st ℓ :
  entry_loc st cn (JSON_stringify o) = Some ℓ →
  truthy (heap st !! ℓ ≫= isFetching) = false →
  lookup_or_fetch JSON_stringify None a o cn st =
  (set_heap (alter (set_isFetching true) ℓ) st, Throw TypeError).
Proof.
  run_code.
  intros H Hf. simpl. rewrite H. simpl. by rewrite Hf.
Qed.

(** *** Promises only gain a status *)

Lemma grows_fulfilled st st' p : grows st st' → fulfilled st p → fulfilled st' p.
Proof.
  intros G (ps & r & Hp & Hs). destruct (G p ps Hp) as (ps' & Hp' & _ & _ & Hs').
  exists ps', r. eauto.
Qed.

Lemma grows_cold st st' p :
  grows st st' → cold_fetch st p → cold_fetch st' p.
Proof.
  intros G (ps & cn & k & Hp & Hh). destruct (G p ps Hp) as (ps' & Hp' & Hh' & _).
  exists ps', cn, k. split; [done|]. congruence.
Qed.

Lemma grows_key st st' p ps :
  grows st st' → promises st !! p = Some ps →
  ∃ ps', promises st' !! p = Some ps' ∧ key_of JSON_stringify ps' = key_of JSON_stringify ps.
Proof.
  intros G Hp. destruct (G p ps Hp) as (ps' & Hp' & _ & Hr & _).
  exists ps'. split; [done|]. unfold key_of. by rewrite Hr.
Qed.

Lemma grows_app st st' nps : promises st' = promises st ++ nps → grows st st'.
Proof.
  intros E p ps Hp. exists ps. rewrite E. split; [|done].
  by apply lookup_app_l_Some.
Qed.

Lemma Inv_init : Inv JSON_stringify (init : State).
Proof.
  constructor; unfold entry_loc, loc_of, entry_loc; simpl; intros;
    repeat match goal with
    | H : ∅ !! _ ≫= _ = Some _ |- _ => by rewrite lookup_empty in H
    | H : [] !! _ = Some _ |- _ => by rewrite lookup_nil in H
    end.
Qed.

(** A fresh object is stored under a path that had none, possibly as the
    entry of a new cold fetch. *)
Lemma Inv_alloc st st' cn k e :
  Inv JSON_stringify st →
  entry_loc st cn k = None →
  heap st' = heap st ++ [e] →
  (∀ cn' k', entry_loc st' cn' k' =
             if decide (cn' = cn ∧ k' = k) then Some (length (heap st))
             else entry_loc st cn' k') →
  (promises st' = promises st ∧ e = empty_object) ∨
  (∃ np, promises st' = promises st ++ [np] ∧ key_of JSON_stringify np = (cn, k) ∧
         status np = None ∧ handlers np = [ColdDone cn k] ∧
         e = {| isFetching := Some true; promise := Some (length (promises st)) |}) →
  Inv JSON_stringify st'.
Proof.
  intros [V J H F U S I C R K] Hnone Hheap Hloc Hprom.
  assert (F1 : ∀ cn' k' ℓ, entry_loc st cn' k' = Some ℓ → entry_loc st' cn' k' = Some ℓ).
  { intros cn' k' ℓ H'. rewrite Hloc. case_decide as Hd; [|done].
    destruct Hd as [-> ->]. congruence. }
  assert (F2 : ∀ cn' k' ℓ, entry_loc st' cn' k' = Some ℓ →
            (cn' = cn ∧ k' = k ∧ ℓ = length (heap st)) ∨ entry_loc st cn' k' = Some ℓ).
  { intros cn' k' ℓ. rewrite Hloc. case_decide as Hd; [|by right].
    destruct Hd as [-> ->]. intros [= <-]. by left. }
  assert (F3 : ∀ ℓ x, heap st' !! ℓ = Some x →
            heap st !! ℓ = Some x ∨ (ℓ = length (heap st) ∧ x = e)).
  { intros ℓ x. rewrite Hheap, lookup_snoc_Some. intros [[_ ?]|[-> <-]]; [by left|by right]. }
  assert (F4 : ∀ ℓ x, heap st !! ℓ = Some x → heap st' !! ℓ = Some x).
  { intros ℓ x Hx. rewrite Hheap. by apply lookup_app_l_Some. }
  assert (G : grows st st').
  { destruct Hprom as [[E _]|(np & E & _)].
    - apply (grows_app _ _ []). by rewrite app_nil_r.
    - by apply (grows_app _ _ [np]). }
  assert (F5 : ∀ p ps, promises st' !! p = Some ps →
            promises st !! p = Some ps ∨
            (p = length (promises st) ∧ key_of JSON_stringify ps = (cn, k) ∧
             status ps = None ∧ handlers ps = [ColdDone cn k] ∧
             e = {| isFetching := Some true; promise := Some (length (promises st)) |})).
  { intros p ps. destruct Hprom as [[E _]|(np & E & Hk & Hs & Hh & He)]; rewrite E.
    - by left.
    - rewrite lookup_snoc_Some. intros [[_ ?]|[-> <-]]; [by left|by right]. }
  assert (F7 : ∀ p ps, promises st !! p = Some ps → key_of JSON_stringify ps ≠ (cn, k)).
  { intros p ps Hp Hk. destruct (H p ps Hp) as (ℓ & Hl & _).
    unfold loc_of in Hl. rewrite Hk in Hl. simpl in Hl. congruence. }
  assert (F8 : ∀ p ps ℓ, promises st !! p = Some ps → loc_of JSON_stringify st' ps = Some ℓ →
            loc_of JSON_stringify st ps = Some ℓ).
  { intros p ps ℓ Hp Hl. unfold loc_of in *. apply F2 in Hl as [(E1 & E2 & _)|Hl]; [|done].
    exfalso. apply (F7 p ps Hp). destruct (key_of JSON_stringify ps); simpl in *; congruence. }
  assert (F9 : ∀ ps ℓ, key_of JSON_stringify ps = (cn, k) →
            loc_of JSON_stringify st' ps = Some ℓ → ℓ = length (heap st)).
  { intros ps ℓ Hk. unfold loc_of. rewrite Hk. simpl. rewrite Hloc.
    rewrite decide_True by done. congruence. }
  assert (F10 : heap st' !! length (heap st) = Some e).
  { rewrite Hheap, lookup_snoc_Some. by right. }
  constructor.
  - intros cn' k' ℓ H'. rewrite Hheap, length_app. simpl.
    apply F2 in H' as [(_ & _ & ->)|H']; [lia|]. apply V in H'. lia.
  - intros cn1 k1 cn2 k2 ℓ H1 H2.
    apply F2 in H1 as [(-> & -> & ->)|H1]; apply F2 in H2 as [(-> & -> & E)|H2]; try done.
    + apply V in H2. lia.
    + apply V in H1. lia.
    + by eapply J.
  - intros p ps Hp. apply F5 in Hp as [Hp|(-> & Hk & Hs & Hh & He)].
    + destruct (H p ps Hp) as (ℓ & Hl & Hh). exists ℓ. split; [|done].
      unfold loc_of in *. by apply F1.
    + exists (length (heap st)). split.
      * unfold loc_of. rewrite Hk. simpl. rewrite Hloc. by rewrite decide_True.
      * left. by rewrite Hk.
  - intros p ps ℓ Hp Hs Hl. apply F5 in Hp as [Hp|(-> & Hk & _ & Hh & He)].
    + destruct (F p ps ℓ Hp Hs (F8 _ _ _ Hp Hl)) as (x & Hx & Hf). eauto.
    + rewrite (F9 _ _ Hk Hl). exists e. split; [done|]. by rewrite He.
  - intros p q ps qs Hp Hq Hsp Hsq Hk.
    apply F5 in Hp as [Hp|(-> & Hkp & _)]; apply F5 in Hq as [Hq|(-> & Hkq & _)]; try done.
    + by eapply U.
    + exfalso. apply (F7 _ _ Hp). congruence.
    + exfalso. apply (F7 _ _ Hq). congruence.
  - intros ℓ x p Hx Hpr. apply F3 in Hx as [Hx|[-> ->]].
    + destruct (S ℓ x p Hx Hpr); [left; by eapply grows_cold|right; by eapply grows_fulfilled].
    + destruct Hprom as [[_ ->]|(np & E & Hk & Hs & Hh & ->)]; [done|].
      simpl in Hpr. injection Hpr as <-. left. exists np, cn, k. split; [|done].
      rewrite E, lookup_snoc_Some. by right.
  - intros ℓ x p Hx Hf Hpr. apply F3 in Hx as [Hx|[-> ->]].
    + eapply grows_fulfilled; [done|]. by eapply I.
    + destruct Hprom as [[_ ->]|(np & E & Hk & Hs & Hh & ->)]; done.
  - intros p ps ℓ Hp Hs Hh Hl. apply F5 in Hp as [Hp|(-> & Hk & _ & _ & He)].
    + destruct (C p ps ℓ Hp Hs Hh (F8 _ _ _ Hp Hl)) as (x & Hx & Hpr). eauto.
    + rewrite (F9 _ _ Hk Hl). exists e. split; [done|]. by rewrite He.
  - intros p ps ℓ x q Hp Hs Hh Hx Hq. apply F5 in Hp as [Hp|(-> & Hk & _ & Hh' & _)].
    + eapply grows_fulfilled; [done|].
      apply F3 in Hx as [Hx|[-> ->]]; [by eapply R|].
      exfalso. destruct (H p ps Hp) as (ℓ0 & Hl0 & [Hc|Hr]); [congruence|].
      rewrite Hh in Hr. injection Hr as <-. unfold loc_of in Hl0. apply V in Hl0. lia.
    + congruence.
  - intros cn' k' ℓ x p Hl Hx Hpr. apply F2 in Hl as [(-> & -> & ->)|Hl].
    + rewrite F10 in Hx. injection Hx as <-.
      destruct Hprom as [[_ ->]|(np & E & Hk & Hs & Hh & ->)]; [done|].
      simpl in Hpr. injection Hpr as <-. exists np. split; [|done].
      rewrite E, lookup_snoc_Some. by right.
    + apply F3 in Hx as [Hx|[-> _]]; [|apply V in Hl; lia].
      destruct (K _ _ _ _ _ Hl Hx Hpr) as (ps & Hp & Hk).
      destruct (grows_key _ _ _ _ G Hp) as (ps' & Hp' & Hk'). exists ps'. split; [done|congruence].
Qed.

(** The flag of an idle entry is raised, possibly with a new refresh. *)
Lemma Inv_raise st st' cn k ℓ :
  Inv JSON_stringify st →
  entry_loc st cn k = Some ℓ →
  truthy (heap st !! ℓ ≫= isFetching) = false →
  (∀ cn' k', entry_loc st' cn' k' = entry_loc st cn' k') →
  heap st' = alter (set_isFetching true) ℓ (heap st) →
  promises st' = promises st ∨
  (∃ np, promises st' = promises st ++ [np] ∧ key_of JSON_stringify np = (cn, k) ∧
         status np = None ∧ handlers np = [RefreshDone ℓ (length (promises st))]) →
  Inv JSON_stringify st'.
Proof.
  intros [V J H F U S I C R K] Hℓ Hidle Hloc Hheap Hprom.
  assert (F0 : ∀ p ps, promises st !! p = Some ps → status ps = None →
            key_of JSON_stringify ps ≠ (cn, k)).
  { intros p ps Hp Hs Hk.
    destruct (F p ps ℓ Hp Hs) as (x & Hx & Hf).
    { unfold loc_of. by rewrite Hk. }
    rewrite Hx in Hidle. simpl in Hidle. by rewrite Hf in Hidle. }
  assert (F1 : ∀ p ps, promises st !! p = Some ps → status ps = None →
            loc_of JSON_stringify st ps ≠ Some ℓ).
  { intros p ps Hp Hs Hl. apply (F0 p ps Hp Hs).
    destruct (J _ _ _ _ _ Hl Hℓ) as [E1 E2].
    destruct (key_of JSON_stringify ps); simpl in *; congruence. }
  assert (F2 : ∀ ps, loc_of JSON_stringify st' ps = loc_of JSON_stringify st ps).
  { intros ps. unfold loc_of. apply Hloc. }
  assert (F3 : ∀ ℓ' x, heap st' !! ℓ' = Some x →
            ∃ x0, heap st !! ℓ' = Some x0 ∧ promise x = promise x0 ∧
                  (ℓ' ≠ ℓ ∧ x = x0 ∨ ℓ' = ℓ ∧ isFetching x = Some true)).
  { intros ℓ' x. rewrite Hheap, list_lookup_alter. case_decide as Hd.
    - subst ℓ'. destruct (heap st !! ℓ) as [x0|]; [|done]. simpl. intros [= <-].
      exists x0. split; [done|]. split; [done|]. by right.
    - intros Hx. exists x. split; [done|]. split; [done|]. left. by split. }
  assert (F4 : ∀ ℓ' x, ℓ' ≠ ℓ → heap st !! ℓ' = Some x → heap st' !! ℓ' = Some x).
  { intros ℓ' x Hne Hx. rewrite Hheap, list_lookup_alter_ne; done. }
  assert (Hx0 : ∃ x0, heap st !! ℓ = Some x0).
  { apply lookup_lt_is_Some. by eapply V. }
  destruct Hx0 as [x0 Hx0].
  assert (F6 : heap st' !! ℓ = Some (set_isFetching true x0)).
  { by rewrite Hheap, list_lookup_alter_eq, Hx0. }
  assert (G : grows st st').
  { destruct Hprom as [E|(np & E & _)].
    - apply (grows_app _ _ []). by rewrite app_nil_r.
    - by apply (grows_app _ _ [np]). }
  assert (F5 : ∀ p ps, promises st' !! p = Some ps →
            promises st !! p = Some ps ∨
            (p = length (promises st) ∧ key_of JSON_stringify ps = (cn, k) ∧
             status ps = None ∧ handlers ps = [RefreshDone ℓ (length (promises st))])).
  { intros p ps. destruct Hprom as [E|(np & E & Hk & Hs & Hh)]; rewrite E.
    - by left.
    - rewrite lookup_snoc_Some. intros [[_ ?]|[-> <-]]; [by left|by right]. }
  constructor.
  - intros cn' k' ℓ' H'. rewrite Hheap, length_alter. rewrite Hloc in H'. by eapply V.
  - intros cn1 k1 cn2 k2 ℓ' H1 H2. rewrite Hloc in H1, H2. by eapply J.
  - intros p ps Hp. rewrite F2. apply F5 in Hp as [Hp|(-> & Hk & Hs & Hh)].
    + by apply H.
    + exists ℓ. split; [|by right]. unfold loc_of. by rewrite Hk.
  - intros p ps ℓ' Hp Hs Hl. rewrite F2 in Hl. apply F5 in Hp as [Hp|(-> & Hk & _ & Hh)].
    + destruct (F p ps ℓ' Hp Hs Hl) as (x & Hx & Hf). exists x. split; [|done].
      apply F4; [|done]. intros ->. by eapply F1.
    + unfold loc_of in Hl. rewrite Hk in Hl. simpl in Hl.
      assert (ℓ' = ℓ) as -> by congruence. eauto.
  - intros p q ps qs Hp Hq Hsp Hsq Hk.
    apply F5 in Hp as [Hp|(-> & Hkp & _)]; apply F5 in Hq as [Hq|(-> & Hkq & _)]; try done.
    + by eapply U.
    + exfalso. apply (F0 _ _ Hp Hsp). congruence.
    + exfalso. apply (F0 _ _ Hq Hsq). congruence.
  - intros ℓ' x p Hx Hpr. apply F3 in Hx as (x1 & Hx1 & Hpr1 & _). rewrite Hpr1 in Hpr.
    destruct (S ℓ' x1 p Hx1 Hpr); [left; by eapply grows_cold|right; by eapply grows_fulfilled].
  - intros ℓ' x p Hx Hf Hpr. apply F3 in Hx as (x1 & Hx1 & Hpr1 & [[_ ->]|[_ Hf1]]).
    + eapply grows_fulfilled; [done|]. by eapply I.
    + by rewrite Hf1 in Hf.
  - intros p ps ℓ' Hp Hs Hh Hl. rewrite F2 in Hl. apply F5 in Hp as [Hp|(-> & Hk & _ & Hh')].
    + destruct (C p ps ℓ' Hp Hs Hh Hl) as (x & Hx & Hpr). exists x. split; [|done].
      apply F4; [|done]. intros ->. by eapply F1.
    + congruence.
  - intros p ps ℓ' x q Hp Hs Hh Hx Hq. eapply grows_fulfilled; [done|].
    apply F3 in Hx as (x1 & Hx1 & Hpr1 & Hcase). rewrite Hpr1 in Hq.
    apply F5 in Hp as [Hp|(-> & Hk & _ & Hh')].
    + by eapply R.
    + rewrite Hh in Hh'. injection Hh' as ->.
      eapply I; [done| |done]. rewrite Hx0 in Hx1. injection Hx1 as ->.
      by rewrite Hx0 in Hidle.
  - intros cn' k' ℓ' x p Hl Hx Hpr. rewrite Hloc in Hl.
    apply F3 in Hx as (x1 & Hx1 & Hpr1 & _). rewrite Hpr1 in Hpr.
    destruct (K _ _ _ _ _ Hl Hx1 Hpr) as (ps & Hp & Hk).
    destruct (grows_key _ _ _ _ G Hp) as (ps' & Hp' & Hk'). exists ps'. split; [done|congruence].
Qed.

(** *** Settlement *)

Lemma run_callback_frame st cb :
  cachedResults (run_callback st cb) = cachedResults st ∧
  promises (run_callback st cb) = promises st.
Proof.
  destruct cb as [ℓ p|cn k]; simpl; [done|].
  by destruct (cachedResults st !! cn ≫= lookup k).
Qed.

Lemma settle_spec st p s st' :
  Inv JSON_stringify st → settle p s st = Some st' →
  ∃ ps ℓ cb, promises st !! p = Some ps ∧ status ps = None ∧
    loc_of JSON_stringify st ps = Some ℓ ∧ handlers ps = [cb] ∧
    (cb = ColdDone (key_of JSON_stringify ps).1 (key_of JSON_stringify ps).2 ∨
     cb = RefreshDone ℓ p) ∧
    promises st' = alter (set_status s) p (promises st) ∧
    cachedResults st' = cachedResults st ∧
    heap st' = match s with
               | Fulfilled _ => alter (done_entry cb) ℓ (heap st)
               | Rejected _ => heap st
               end.
Proof.
  intros HI. unfold settle. destruct (promises st !! p) as [ps|] eqn:Hp; [|done].
  destruct (status ps) eqn:Hs; [done|]. intros [= <-].
  destruct (inv_handlers _ _ HI p ps Hp) as (ℓ & Hl & Hh).
  exists ps, ℓ.
  destruct Hh as [Hh|Hh]; rewrite Hh.
  - eexists. do 4 (split; [done|]). split; [by left|].
    unfold loc_of, entry_loc, key_of in Hl. simpl in Hl.
    destruct s; unfold key_of; simpl; [|done]. rewrite Hl. done.
  - eexists. do 4 (split; [done|]). split; [by right|].
    destruct s; simpl; [|done]. do 2 (split; [done|]).
    apply list_eq. intros i. rewrite !list_lookup_alter.
    repeat case_decide; try done. by destruct (heap st !! ℓ).
Qed.

Lemma Inv_settle st p s st' :
  Inv JSON_stringify st → settle p s st = Some st' → Inv JSON_stringify st'.
Proof.
  intros HI Hsettle.
  destruct (settle_spec _ _ _ _ HI Hsettle)
    as (ps & ℓ & cb & Hp & Hs & Hl & Hh & Hcb & Hprom & Hcr & Hheap).
  destruct HI as [V J H F U S I C R K].
  assert (Hloc : ∀ cn k, entry_loc st' cn k = entry_loc st cn k).
  { intros. unfold entry_loc. by rewrite Hcr. }
  assert (F2 : ∀ qs, loc_of JSON_stringify st' qs = loc_of JSON_stringify st qs).
  { intros qs. unfold loc_of. apply Hloc. }
  assert (P1 : ∀ q qs, promises st' !! q = Some qs →
            ∃ qs0, promises st !! q = Some qs0 ∧ request qs = request qs0 ∧
                   handlers qs = handlers qs0 ∧
                   ((q ≠ p ∧ qs = qs0) ∨ (q = p ∧ status qs = Some s))).
  { intros q qs. rewrite Hprom, list_lookup_alter. case_decide as Hd.
    - subst q. rewrite Hp. simpl. intros [= <-]. exists ps. do 3 (split; [done|]). by right.
    - intros Hq. exists qs. do 3 (split; [done|]). by left. }
  assert (G : grows st st').
  { intros q qs Hq. destruct (decide (q = p)) as [->|Hne].
    - exists (set_status s ps). rewrite Hprom, list_lookup_alter_eq, Hp.
      assert (qs = ps) as -> by congruence.
      do 3 (split; [done|]). intros s'. congruence.
    - exists qs. rewrite Hprom, list_lookup_alter_ne by done. done. }
  assert (P2 : ∀ q qs, promises st' !! q = Some qs → status qs = None →
            q ≠ p ∧ promises st !! q = Some qs).
  { intros q qs Hq Hsq. destruct (P1 q qs Hq) as (qs0 & Hq0 & _ & _ & [[? ->]|[_ E]]);
      [done|congruence]. }
  assert (P3 : ∀ q qs, promises st' !! q = Some qs → status qs = None →
            loc_of JSON_stringify st qs ≠ Some ℓ).
  { intros q qs Hq Hsq Hlq. destruct (P2 q qs Hq Hsq) as [Hne Hq0].
    apply Hne. apply (U q p qs ps); try done.
    unfold loc_of in *. destruct (J _ _ _ _ _ Hlq Hl) as [E1 E2].
    destruct (key_of JSON_stringify qs), (key_of JSON_stringify ps); simpl in *; congruence. }
  assert (H1 : ∀ ℓ' x, heap st' !! ℓ' = Some x →
            ∃ x0, heap st !! ℓ' = Some x0 ∧
                  (x = x0 ∨ (ℓ' = ℓ ∧ (∃ r, s = Fulfilled r) ∧ x = done_entry cb x0))).
  { intros ℓ' x. rewrite Hheap. destruct s as [r|err]; [|by eauto].
    rewrite list_lookup_alter. case_decide as Hd.
    - subst ℓ'. destruct (heap st !! ℓ) as [x0|]; [|done]. simpl. intros [= <-].
      exists x0. split; [done|]. right. eauto.
    - eauto. }
  assert (H2 : ∀ ℓ', ℓ' ≠ ℓ → heap st' !! ℓ' = heap st !! ℓ').
  { intros ℓ' Hne. rewrite Hheap. destruct s; [|done]. by rewrite list_lookup_alter_ne. }
  assert (Hful : ∀ r, s = Fulfilled r → fulfilled st' p).
  { intros r ->. exists (set_status (Fulfilled r) ps), r.
    by rewrite Hprom, list_lookup_alter_eq, Hp. }
  constructor.
  - intros cn' k' ℓ' H'. rewrite Hloc in H'. apply V in H'.
    rewrite Hheap. destruct s; [by rewrite length_alter|done].
  - intros cn1 k1 cn2 k2 ℓ' H1' H2'. rewrite Hloc in H1', H2'. by eapply J.
  - intros q qs Hq. rewrite F2.
    destruct (P1 q qs Hq) as (qs0 & Hq0 & Hr & Hhq & _).
    destruct (H q qs0 Hq0) as (ℓ' & Hl' & Hh').
    exists ℓ'. unfold loc_of, key_of in *. rewrite Hr, Hhq. done.
  - intros q qs ℓ' Hq Hsq Hlq. rewrite F2 in Hlq.
    destruct (P2 q qs Hq Hsq) as [Hne Hq0].
    rewrite H2; [by eapply F|]. intros ->. by eapply P3.
  - intros q1 q2 qs1 qs2 Hq1 Hq2 Hs1 Hs2 Hk.
    destruct (P2 _ _ Hq1 Hs1) as [_ Hq1']. destruct (P2 _ _ Hq2 Hs2) as [_ Hq2'].
    by eapply U.
  - intros ℓ' x q Hx Hpr. apply H1 in Hx as (x0 & Hx0 & [->|(-> & [r Hr] & ->)]).
    + destruct (S ℓ' x0 q Hx0 Hpr); [left; by eapply grows_cold|right; by eapply grows_fulfilled].
    + destruct Hcb as [->| ->]; simpl in Hpr.
      * destruct (S ℓ x0 q Hx0 Hpr);
          [left; by eapply grows_cold|right; by eapply grows_fulfilled].
      * injection Hpr as <-. right. by eapply Hful.
  - intros ℓ' x q Hx Hf Hpr. apply H1 in Hx as (x0 & Hx0 & [->|(-> & [r Hr] & ->)]).
    + eapply grows_fulfilled; [done|]. by eapply I.
    + destruct Hcb as [->| ->]; simpl in Hpr.
      * destruct (C p ps ℓ Hp Hs Hh Hl) as (e & He & Hpe).
        assert (q = p) as -> by congruence. by eapply Hful.
      * injection Hpr as <-. by eapply Hful.
  - intros q qs ℓ' Hq Hsq Hhq Hlq. rewrite F2 in Hlq.
    destruct (P2 q qs Hq Hsq) as [Hne Hq0].
    rewrite H2; [by eapply C|]. intros ->. by eapply P3.
  - intros q qs ℓ' x q' Hq Hsq Hhq Hx Hpr. eapply grows_fulfilled; [done|].
    destruct (P2 q qs Hq Hsq) as [Hne Hq0].
    assert (Hlq : loc_of JSON_stringify st qs = Some ℓ').
    { destruct (H q qs Hq0) as (ℓ0 & Hl0 & [Hc|Hr]); congruence. }
    rewrite H2 in Hx; [by eapply R|]. intros ->. by eapply P3.
  - intros cn' k' ℓ' x q Hlq Hx Hpr. rewrite Hloc in Hlq.
    assert (Hold : ∀ x0, heap st !! ℓ' = Some x0 → promise x0 = Some q →
              ∃ qs, promises st' !! q = Some qs ∧ key_of JSON_stringify qs = (cn', k')).
    { intros x0 Hx0 Hpr0. destruct (K _ _ _ _ _ Hlq Hx0 Hpr0) as (qs & Hq & Hk).
      destruct (grows_key _ _ _ _ G Hq) as (qs' & Hq' & Hk'). exists qs'. split; [done|congruence]. }
    apply H1 in Hx as (x0 & Hx0 & [->|(-> & [r Hr] & ->)]); [by eapply Hold|].
    destruct Hcb as [->| ->]; simpl in Hpr; [by eapply Hold|].
    injection Hpr as <-.
    destruct (grows_key _ _ _ _ G Hp) as (ps' & Hp' & Hk'). exists ps'. split; [done|].
    rewrite Hk'. unfold loc_of in Hl. destruct (J _ _ _ _ _ Hl Hlq) as [E1 E2].
    destruct (key_of JSON_stringify ps); simpl in *; congruence.
Qed.

Lemma Inv_ensure cn a st :
  Inv JSON_stringify st → Inv JSON_stringify (ensure_objects cn a st).1.
Proof.
  intros HI. destruct (entry_loc st cn a) as [ℓ|] eqn:Ha.
  - by rewrite ensure_objects_present.
  - destruct (ensure_objects_absent cn a st Ha) as (Hh & Hp & Hl).
    eapply Inv_alloc; eauto.
Qed.

Lemma Inv_call c a o cn st :
  Inv JSON_stringify st →
  Inv JSON_stringify (returnCacheAndStartRefetch JSON_stringify c a o cn st).1.
Proof.
  intros HI. rewrite rcasr_split.
  pose proof (Inv_ensure cn a st HI) as HI1.
  pose proof (ensure_objects_controller cn a st) as Hc.
  set (st1 := (ensure_objects cn a st).1) in *. clearbody st1.
  destruct (entry_loc st1 cn (JSON_stringify o)) as [ℓ|] eqn:Hk.
  - destruct (truthy (heap st1 !! ℓ ≫= isFetching)) eqn:Hf.
    + by rewrite (lookup_or_fetch_fetching _ _ _ _ _ _ Hk Hf).
    + destruct c as [c|].
      * destruct (lookup_or_fetch_refresh c a o cn st1 ℓ Hk Hf) as (_ & Hcr & Hh & Hp).
        eapply Inv_raise; eauto.
        -- intros. unfold entry_loc. by rewrite Hcr.
        -- right. eexists. split; [done|]. done.
      * rewrite (lookup_or_fetch_refresh_throw _ _ _ _ _ Hk Hf).
        eapply Inv_raise; eauto.
  - destruct c as [c|].
    + destruct (lookup_or_fetch_cold c a o cn st1 Hk Hc) as (_ & Hh & Hp & Hl).
      eapply Inv_alloc; eauto. right. eexists. split; [done|]. done.
    + by rewrite lookup_or_fetch_cold_throw.
Qed.

Lemma Inv_step st ev st' :
  Inv JSON_stringify st → step JSON_stringify st ev = Some st' → Inv JSON_stringify st'.
Proof.
  destruct ev as [c a o cn|p s]; simpl.
  - intros HI [= <-]. by apply Inv_call.
  - apply Inv_settle.
Qed.

Lemma Inv_run evs st st' :
  Inv JSON_stringify st → run JSON_stringify evs st = Some st' → Inv JSON_stringify st'.
Proof.
  revert st. induction evs as [|ev evs IH]; simpl; intros st HI.
  - by intros [= <-].
  - destruct (step JSON_stringify st ev) as [st1|] eqn:Hstep; [|done].
    apply IH. by eapply Inv_step.
Qed.

Lemma reachable_Inv st : reachable JSON_stringify st → Inv JSON_stringify st.
Proof. intros [evs Hrun]. eapply Inv_run; [apply Inv_init|done]. Qed.

(** *** What one call does, by the state of the entry *)

Lemma ensure_objects_keeps cn a st :
  let st1 := (ensure_objects cn a st).1 in
  promises st1 = promises st ∧
  (∀ cn' k' ℓ, entry_loc st cn' k' = Some ℓ → entry_loc st1 cn' k' = Some ℓ) ∧
  (∀ cn' k', entry_loc st cn' k' = None → ¬ (cn' = cn ∧ k' = a) →
             entry_loc st1 cn' k' = None) ∧
  (∀ ℓ e, heap st !! ℓ = Some e → heap st1 !! ℓ = Some e).
Proof.
  destruct (entry_loc st cn a) as [ℓ0|] eqn:Ha.
  - rewrite ensure_objects_present by done. done.
  - destruct (ensure_objects_absent cn a st Ha) as (Hh & Hp & Hl). simpl.
    split; [done|]. split; [|split].
    + intros cn' k' ℓ H'. rewrite Hl. case_decide as Hd; [|done].
      destruct Hd as [-> ->]. congruence.
    + intros cn' k' H' Hne. rewrite Hl. by rewrite decide_False.
    + intros ℓ e He. rewrite Hh. by apply lookup_app_l_Some.
Qed.

Lemma call_cold c a o cn st :
  entry_loc st cn (JSON_stringify o) = None →
  JSON_stringify o ≠ a →
  let r := returnCacheAndStartRefetch JSON_stringify (Some c) a o cn st in
  let p := length (promises st) in
  r.2 = Normal (Some p) ∧
  promises r.1 = promises st ++ [new_promise c a o cn (ColdDone cn (JSON_stringify o))] ∧
  entry r.1 cn (JSON_stringify o) = Some {| isFetching := Some true; promise := Some p |}.
Proof.
  intros Hk Hne. simpl. rewrite rcasr_split.
  destruct (ensure_objects_keeps cn a st) as (Hp & _ & Hnone & _).
  pose proof (ensure_objects_controller cn a st) as Hc.
  set (st1 := (ensure_objects cn a st).1) in *. clearbody st1.
  assert (Hk1 : entry_loc st1 cn (JSON_stringify o) = None).
  { apply Hnone; [done|]. by intros [_ ?]. }
  destruct (lookup_or_fetch_cold c a o cn st1 Hk1 Hc) as (Hr & Hh & Hps & Hl).
  rewrite <- Hp. split; [done|]. split; [done|].
  unfold entry. rewrite Hl, decide_True by done. simpl.
  rewrite Hh, lookup_snoc_Some. by right.
Qed.

Lemma call_fetching c a o cn st ℓ e :
  entry_loc st cn (JSON_stringify o) = Some ℓ →
  heap st !! ℓ = Some e →
  isFetching e = Some true →
  let r := returnCacheAndStartRefetch JSON_stringify c a o cn st in
  r.2 = Normal (promise e) ∧ promises r.1 = promises st ∧
  entry_loc r.1 cn (JSON_stringify o) = Some ℓ ∧ heap r.1 !! ℓ = Some e.
Proof.
  intros Hk He Hf. simpl. rewrite rcasr_split.
  destruct (ensure_objects_keeps cn a st) as (Hp & Hsome & _ & Hheap).
  set (st1 := (ensure_objects cn a st).1) in *. clearbody st1.
  rewrite (lookup_or_fetch_fetching c a o cn st1 ℓ (Hsome _ _ _ Hk)).
  - simpl. rewrite (Hheap _ _ He). simpl. eauto.
  - rewrite (Hheap _ _ He). simpl. by rewrite Hf.
Qed.

Lemma call_refresh c a o cn st ℓ e :
  entry_loc st cn (JSON_stringify o) = Some ℓ →
  heap st !! ℓ = Some e →
  truthy (isFetching e) = false →
  let r := returnCacheAndStartRefetch JSON_stringify (Some c) a o cn st in
  let p := length (promises st) in
  r.2 = Normal (promise e) ∧
  promises r.1 = promises st ++ [new_promise c a o cn (RefreshDone ℓ p)] ∧
  entry_loc r.1 cn (JSON_stringify o) = Some ℓ ∧
  heap r.1 !! ℓ = Some (set_isFetching true e).
Proof.
  intros Hk He Hf. simpl. rewrite rcasr_split.
  destruct (ensure_objects_keeps cn a st) as (Hp & Hsome & _ & Hheap).
  set (st1 := (ensure_objects cn a st).1) in *. clearbody st1.
  destruct (lookup_or_fetch_refresh c a o cn st1 ℓ (Hsome _ _ _ Hk)) as (Hr & Hcr & Hh & Hps).
  { rewrite (Hheap _ _ He). done. }
  rewrite Hr, Hps, Hp, Hh. rewrite (Hheap _ _ He). simpl.
  split; [done|]. split; [done|]. split.
  - unfold entry_loc. rewrite Hcr. by apply Hsome.
  - by rewrite list_lookup_alter_eq, (Hheap _ _ He).
Qed.


(** *** Settling a pending promise *)


Lemma settle_length st p s st' :
  settle p s st = Some st' → length (promises st') = length (promises st).
Proof.
  unfold settle. destruct (promises st !! p) as [ps|] eqn:Hp; [|done].
  destruct (status ps) eqn:Hs; [done|]. intros [= <-].
  assert (E : ∀ st0 : State, promises (foldl run_callback st0 (handlers ps)) = promises st0).
  { induction (handlers ps) as [|cb l IH]; intros st0; simpl; [done|].
    rewrite IH. apply run_callback_frame. }
  destruct s; [rewrite E|]; simpl; by rewrite length_alter.
Qed.





Lemma settle_rejected st p ps err :
  promises st !! p = Some ps → status ps = None →
  settle p (Rejected err) st = Some (set_promises (alter (set_status (Rejected err)) p) st).
Proof. intros Hp Hs. unfold settle. by rewrite Hp, Hs. Qed.

Lemma settle_fulfilled_cold st p ps cn k ℓ e r :
  promises st !! p = Some ps → status ps = None → handlers ps = [ColdDone cn k] →
  entry_loc st cn k = Some ℓ → heap st !! ℓ = Some e →
  ∃ st', settle p (Fulfilled r) st = Some st' ∧ fulfilled st' p ∧
         entry st' cn k = Some (set_isFetching false e).
Proof.
  intros Hp Hs Hh Hl He. unfold settle. rewrite Hp, Hs, Hh. simpl.
  unfold entry_loc in Hl. rewrite Hl. eexists. split; [done|]. split.
  - exists (set_status (Fulfilled r) ps), r. simpl.
    by rewrite list_lookup_alter_eq, Hp.
  - unfold entry, entry_loc. simpl. rewrite Hl. simpl.
    by rewrite list_lookup_alter_eq, He.
Qed.

Lemma settle_fulfilled_refresh st p ps cn k ℓ e r :
  promises st !! p = Some ps → status ps = None → handlers ps = [RefreshDone ℓ p] →
  entry_loc st cn k = Some ℓ → heap st !! ℓ = Some e →
  ∃ st', settle p (Fulfilled r) st = Some st' ∧ fulfilled st' p ∧
         entry st' cn k = Some {| isFetching := Some false; promise := Some p |}.
Proof.
  intros Hp Hs Hh Hl He. unfold settle. rewrite Hp, Hs, Hh. simpl.
  eexists. split; [done|]. split.
  - exists (set_status (Fulfilled r) ps), r. simpl.
    by rewrite list_lookup_alter_eq, Hp.
  - unfold entry, entry_loc in *. simpl. rewrite Hl. simpl.
    by rewrite !list_lookup_alter_eq, He.
Qed.

Lemma entry_Some st cn k e :
  entry st cn k = Some e ↔ ∃ ℓ, entry_loc st cn k = Some ℓ ∧ heap st !! ℓ = Some e.
Proof.
  unfold entry. destruct (entry_loc st cn k) as [ℓ|]; simpl.
  - split; [eauto|]. by intros (? & [= <-] & ?).
  - split; [done|]. by intros (? & ? & _).
Qed.

Lemma stored_below st ℓ e p :
  Inv JSON_stringify st → heap st !! ℓ = Some e → promise e = Some p →
  p < length (promises st).
Proof.
  intros HI He Hp.
  destruct (inv_stored _ _ HI ℓ e p He Hp) as [(ps & _ & _ & Hps & _)|(ps & _ & Hps & _)];
    by eapply lookup_lt_Some.
Qed.

(** *** What a step leaves alone *)

Lemma call_new_promises c a o cn st p ps :
  promises (returnCacheAndStartRefetch JSON_stringify c a o cn st).1 !! p = Some ps →
  promises st !! p = Some ps ∨
  (p = length (promises st) ∧ status ps = None ∧
   key_of JSON_stringify ps = (cn, JSON_stringify o)).
Proof.
  rewrite rcasr_split.
  destruct (ensure_objects_keeps cn a st) as (Hp & _).
  pose proof (ensure_objects_controller cn a st) as Hc.
  set (st1 := (ensure_objects cn a st).1) in *. clearbody st1. rewrite <- Hp.
  destruct (entry_loc st1 cn (JSON_stringify o)) as [ℓ|] eqn:Hk.
  - destruct (truthy (heap st1 !! ℓ ≫= isFetching)) eqn:Hf.
    + rewrite (lookup_or_fetch_fetching _ _ _ _ _ _ Hk Hf). by left.
    + destruct c as [c|].
      * destruct (lookup_or_fetch_refresh c a o cn st1 ℓ Hk Hf) as (_ & _ & _ & Hps).
        rewrite Hps, lookup_snoc_Some. intros [[_ ?]|[-> <-]]; [by left|by right].
      * rewrite (lookup_or_fetch_refresh_throw _ _ _ _ _ Hk Hf). by left.
  - destruct c as [c|].
    + destruct (lookup_or_fetch_cold c a o cn st1 Hk Hc) as (_ & _ & Hps & _).
      rewrite Hps, lookup_snoc_Some. intros [[_ ?]|[-> <-]]; [by left|by right].
    + rewrite lookup_or_fetch_cold_throw by done. by left.
Qed.

(** A call for one key leaves the entries of the other keys as they are. *)
Lemma call_frame c a o cn0 st cn k ℓ e :
  Inv JSON_stringify st →
  ¬ (cn0 = cn ∧ JSON_stringify o = k) →
  entry_loc st cn k = Some ℓ → heap st !! ℓ = Some e →
  let r := returnCacheAndStartRefetch JSON_stringify c a o cn0 st in
  entry_loc r.1 cn k = Some ℓ ∧ heap r.1 !! ℓ = Some e.
Proof.
  intros HI Hne Hl He. simpl. rewrite rcasr_split.
  pose proof (Inv_ensure cn0 a st HI) as HI1.
  destruct (ensure_objects_keeps cn0 a st) as (_ & Hsome & _ & Hheap).
  pose proof (ensure_objects_controller cn0 a st) as Hc.
  apply Hsome in Hl. apply Hheap in He.
  set (st1 := (ensure_objects cn0 a st).1) in *. clearbody st1.
  destruct (entry_loc st1 cn0 (JSON_stringify o)) as [ℓ0|] eqn:Hk.
  - assert (ℓ0 ≠ ℓ).
    { intros ->. apply Hne. by eapply (inv_inj _ _ HI1). }
    destruct (truthy (heap st1 !! ℓ0 ≫= isFetching)) eqn:Hf.
    + by rewrite (lookup_or_fetch_fetching _ _ _ _ _ _ Hk Hf).
    + destruct c as [c|].
      * destruct (lookup_or_fetch_refresh c a o cn0 st1 ℓ0 Hk Hf) as (_ & Hcr & Hh & _).
        unfold entry_loc. rewrite Hcr, Hh. by rewrite list_lookup_alter_ne.
      * rewrite (lookup_or_fetch_refresh_throw _ _ _ _ _ Hk Hf). simpl.
        by rewrite list_lookup_alter_ne.
  - destruct c as [c|].
    + destruct (lookup_or_fetch_cold c a o cn0 st1 Hk Hc) as (_ & Hh & _ & Hl').
      rewrite Hl', Hh. rewrite decide_False.
      * split; [done|]. by apply lookup_app_l_Some.
      * intros [-> ->]. by apply Hne.
    + by rewrite lookup_or_fetch_cold_throw.
Qed.

(** A call never changes the promise an existing entry holds. *)
Lemma call_keeps_promise c a o cn0 st cn k e :
  entry st cn k = Some e →
  ∃ e', entry (returnCacheAndStartRefetch JSON_stringify c a o cn0 st).1 cn k = Some e' ∧
        promise e' = promise e.
Proof.
  intros He. apply entry_Some in He as (ℓ & Hl & He). rewrite rcasr_split.
  destruct (ensure_objects_keeps cn0 a st) as (_ & Hsome & _ & Hheap).
  pose proof (ensure_objects_controller cn0 a st) as Hc.
  apply Hsome in Hl. apply Hheap in He.
  set (st1 := (ensure_objects cn0 a st).1) in *. clearbody st1.
  destruct (entry_loc st1 cn0 (JSON_stringify o)) as [ℓ0|] eqn:Hk.
  - destruct (truthy (heap st1 !! ℓ0 ≫= isFetching)) eqn:Hf.
    + rewrite (lookup_or_fetch_fetching _ _ _ _ _ _ Hk Hf). exists e. split; [|done].
      apply entry_Some. eauto.
    + assert (Hcase : ∀ st2 : State, cachedResults st2 = cachedResults st1 →
                heap st2 = alter (set_isFetching true) ℓ0 (heap st1) →
                ∃ e', entry st2 cn k = Some e' ∧ promise e' = promise e).
      { intros st2 Hcr Hh. destruct (decide (ℓ0 = ℓ)) as [->|Hne].
        - exists (set_isFetching true e). split; [|done]. apply entry_Some. exists ℓ.
          unfold entry_loc. rewrite Hcr, Hh. split; [done|].
          by rewrite list_lookup_alter_eq, He.
        - exists e. split; [|done]. apply entry_Some. exists ℓ.
          unfold entry_loc. rewrite Hcr, Hh. split; [done|].
          by rewrite list_lookup_alter_ne. }
      destruct c as [c|].
      * destruct (lookup_or_fetch_refresh c a o cn0 st1 ℓ0 Hk Hf) as (_ & Hcr & Hh & _).
        by apply Hcase.
      * rewrite (lookup_or_fetch_refresh_throw _ _ _ _ _ Hk Hf). by apply Hcase.
  - destruct c as [c|].
    + destruct (lookup_or_fetch_cold c a o cn0 st1 Hk Hc) as (_ & Hh & _ & Hl').
      exists e. split; [|done]. apply entry_Some. exists ℓ. rewrite Hl', Hh.
      rewrite decide_False.
      * split; [done|]. by apply lookup_app_l_Some.
      * intros [-> ->]. congruence.
    + rewrite lookup_or_fetch_cold_throw by done. exists e. split; [|done].
      apply entry_Some. eauto.
Qed.

Lemma key_eq (ps : PromiseState) cn k :
  key_of JSON_stringify ps = (cn, k) ↔
  req_controllerName (request ps) = cn ∧ JSON_stringify (req_options (request ps)) = k.
Proof. unfold key_of. split; [by intros [= -> ->]|by intros [-> ->]]. Qed.

(** While nothing is in flight for a key, its entry changes only by a
    call for that key, and not even by that while its flag is up. *)
Lemma quiet_step st ev st' cn k e :
  Inv JSON_stringify st → quiet JSON_stringify st cn k e →
  step JSON_stringify st ev = Some st' →
  (call_for JSON_stringify cn k ev → isFetching e = Some true) →
  quiet JSON_stringify st' cn k e.
Proof.
  intros HI [He Hq] Hstep Hev. apply entry_Some in He as (ℓ & Hl & He).
  destruct ev as [c a o cn0|p s]; simpl in *.
  - injection Hstep as <-.
    assert (Hent : entry (returnCacheAndStartRefetch JSON_stringify c a o cn0 st).1 cn k
                   = Some e ∧
                   (¬ (cn0 = cn ∧ JSON_stringify o = k) ∨
                    promises (returnCacheAndStartRefetch JSON_stringify c a o cn0 st).1
                    = promises st)).
    { destruct (decide (cn0 = cn ∧ JSON_stringify o = k)) as [[-> <-]|Hne].
      - destruct (call_fetching c a o cn st ℓ e Hl He) as (_ & Hps & Hl' & He'); [by apply Hev|].
        split; [|by right]. apply entry_Some. eauto.
      - destruct (call_frame c a o cn0 st cn k ℓ e HI Hne Hl He) as [Hl' He'].
        split; [|by left]. apply entry_Some. eauto. }
    destruct Hent as [Hent Hcase]. split; [done|].
    intros p ps Hp Hs. destruct Hcase as [Hne|Hsame].
    + apply call_new_promises in Hp as [Hp|(_ & _ & Hk)]; [by eapply Hq|].
      rewrite Hk. intros [= E1 E2]. by apply Hne.
    + rewrite Hsame in Hp. by eapply Hq.
  - destruct (settle_spec _ _ _ _ HI Hstep)
      as (ps & ℓp & cb & Hp & Hs & Hlp & Hh & Hcb & Hprom & Hcr & Hheap).
    assert (Hne : ℓp ≠ ℓ).
    { intros ->. apply (Hq p ps Hp Hs). unfold loc_of in Hlp.
      destruct (inv_inj _ _ HI _ _ _ _ _ Hlp Hl) as [E1 E2].
      destruct (key_of JSON_stringify ps); simpl in *; congruence. }
    split.
    + apply entry_Some. exists ℓ. unfold entry_loc. rewrite Hcr. split; [done|].
      rewrite Hheap. destruct s; [by rewrite list_lookup_alter_ne|done].
    + intros q qs Hq' Hsq. rewrite Hprom, list_lookup_alter in Hq'.
      case_decide as Hd.
      * subst q. rewrite Hp in Hq'. simpl in Hq'. injection Hq' as <-. done.
      * by eapply Hq.
Qed.

Lemma quiet_run evs st st' cn k e :
  Inv JSON_stringify st → quiet JSON_stringify st cn k e →
  run JSON_stringify evs st = Some st' →
  (isFetching e = Some true ∨ Forall (λ ev, ¬ call_for JSON_stringify cn k ev) evs) →
  quiet JSON_stringify st' cn k e.
Proof.
  revert st. induction evs as [|ev evs IH]; simpl; intros st HI Hq Hrun Hevs.
  - by injection Hrun as <-.
  - destruct (step JSON_stringify st ev) as [st1|] eqn:Hstep; [|done].
    apply (IH st1); [by eapply Inv_step| |done|].
    + eapply quiet_step; [done..|].
      destruct Hevs as [?|Hall]; [done|]. intros Hc.
      by apply Forall_cons in Hall as [? _].
    + destruct Hevs as [?|Hall]; [by left|right]. by apply Forall_cons in Hall as [_ ?].
Qed.

Lemma fetch_for_key st p cn a k :
  fetch_for JSON_stringify st p cn a k →
  ∃ ps, promises st !! p = Some ps ∧ key_of JSON_stringify ps = (cn, k).
Proof. intros (ps & Hp & E1 & _ & E2). exists ps. split; [done|]. by apply key_eq. Qed.

(** What the settlement of a fetch leaves behind in the entry of its key. *)
Lemma settle_quiet st p s st' ps cn k :
  Inv JSON_stringify st → settle p s st = Some st' →
  promises st !! p = Some ps → key_of JSON_stringify ps = (cn, k) →
  ∃ ℓ e0 cb, entry_loc st cn k = Some ℓ ∧ heap st !! ℓ = Some e0 ∧
    isFetching e0 = Some true ∧ handlers ps = [cb] ∧
    (cb = ColdDone cn k ∧ promise e0 = Some p ∨ cb = RefreshDone ℓ p) ∧
    quiet JSON_stringify st' cn k
      (match s with Fulfilled _ => done_entry cb e0 | Rejected _ => e0 end).
Proof.
  intros HI Hsettle Hp Hk.
  destruct (settle_spec _ _ _ _ HI Hsettle)
    as (ps' & ℓ & cb & Hp' & Hs & Hl & Hh & Hcb & Hprom & Hcr & Hheap).
  assert (ps' = ps) as -> by congruence.
  destruct (inv_flag _ _ HI p ps ℓ Hp Hs Hl) as (e0 & He0 & Hf).
  unfold loc_of in Hl. rewrite Hk in Hl, Hcb. simpl in Hl, Hcb.
  exists ℓ, e0, cb. do 4 (split; [done|]). split.
  - destruct Hcb as [->| ->]; [left|by right]. split; [done|].
    destruct (inv_cold _ _ HI p ps ℓ Hp Hs) as (e1 & He1 & Hpr).
    + by rewrite Hh, Hk.
    + unfold loc_of. by rewrite Hk.
    + congruence.
  - split.
    + apply entry_Some. exists ℓ. unfold entry_loc. rewrite Hcr. split; [done|].
      rewrite Hheap. destruct s; [|done]. by rewrite list_lookup_alter_eq, He0.
    + intros q qs Hq Hsq Hkq. rewrite Hprom, list_lookup_alter in Hq.
      case_decide as Hd.
      * subst q. rewrite Hp in Hq. simpl in Hq. by injection Hq as <-.
      * apply Hd. symmetry. apply (inv_unique _ _ HI q p qs ps); try done. congruence.
Qed.

(** A call hands out the promise the entry of its key holds afterwards. *)
Lemma call_returns_stored c a o cn st p :
  (returnCacheAndStartRefetch JSON_stringify c a o cn st).2 = Normal (Some p) →
  ∃ e, entry (returnCacheAndStartRefetch JSON_stringify c a o cn st).1 cn (JSON_stringify o)
       = Some e ∧ promise e = Some p.
Proof.
  rewrite rcasr_split.
  pose proof (ensure_objects_controller cn a st) as Hc.
  set (st1 := (ensure_objects cn a st).1) in *. clearbody st1.
  destruct (entry_loc st1 cn (JSON_stringify o)) as [ℓ|] eqn:Hk.
  - assert (Hcase : ∀ e0, heap st1 !! ℓ = Some e0 → promise e0 = Some p →
              ∀ (f : Entry → Entry) (st2 : State), (∀ x, promise (f x) = promise x) →
                cachedResults st2 = cachedResults st1 → heap st2 !! ℓ = f <$> heap st1 !! ℓ →
                ∃ e, entry st2 cn (JSON_stringify o) = Some e ∧ promise e = Some p).
    { intros e0 He0 Hp0 f st2 Hf Hcr Hh. exists (f e0). split; [|by rewrite Hf].
      apply entry_Some. exists ℓ. unfold entry_loc. rewrite Hcr. split; [done|].
      by rewrite Hh, He0. }
    destruct (truthy (heap st1 !! ℓ ≫= isFetching)) eqn:Hf.
    + rewrite (lookup_or_fetch_fetching _ _ _ _ _ _ Hk Hf). simpl. intros [= Hp].
      destruct (heap st1 !! ℓ) as [e0|] eqn:He0; [|done].
      apply (Hcase e0 eq_refl Hp id); [done..|]. by rewrite He0.
    + destruct c as [c|].
      * destruct (lookup_or_fetch_refresh c a o cn st1 ℓ Hk Hf) as (Hr & Hcr & Hh & _).
        rewrite Hr. intros [= Hp].
        destruct (heap st1 !! ℓ) as [e0|] eqn:He0; [|done].
        apply (Hcase e0 eq_refl Hp (set_isFetching true)); [done..|].
        by rewrite Hh, list_lookup_alter_eq, He0.
      * by rewrite (lookup_or_fetch_refresh_throw _ _ _ _ _ Hk Hf).
  - destruct c as [c|].
    + destruct (lookup_or_fetch_cold c a o cn st1 Hk Hc) as (Hr & Hh & _ & Hl).
      rewrite Hr. intros [= <-].
      exists {| isFetching := Some true; promise := Some (length (promises st1)) |}.
      split; [|done].
      apply entry_Some. exists (length (heap st1)). rewrite Hl, decide_True by done.
      split; [done|]. rewrite Hh, lookup_snoc_Some. by right.
    + by rewrite lookup_or_fetch_cold_throw.
Qed.


(** ** The three paths of [returnCacheAndStartRefetch] *)

(** C8 (amended): for a key under which the cache holds no entry, a call
    creates the entry with [isFetching = true], makes exactly one fetch,
    stores the promise of that fetch in the entry at once, and returns that
    promise, so that the caller sees whatever the fetch settles to; when
    the fetch fulfils, [isFetching] becomes [false]. *)
Theorem cold_call_creates_entry c a o cn st :
  entry_loc st cn (JSON_stringify o) = None →
  JSON_stringify o ≠ a →
  let r := returnCacheAndStartRefetch JSON_stringify (Some c) a o cn st in
  let p := length (promises st) in
  r.2 = Normal (Some p) ∧
  promises r.1 = promises st ++ [new_promise c a o cn (ColdDone cn (JSON_stringify o))] ∧
  entry r.1 cn (JSON_stringify o) = Some {| isFetching := Some true; promise := Some p |} ∧
  (∀ err, ∃ st', settle p (Rejected err) r.1 = Some st' ∧ rejected st' p) ∧
  (∀ result, ∃ st', settle p (Fulfilled result) r.1 = Some st' ∧ fulfilled st' p ∧
     entry st' cn (JSON_stringify o)
     = Some {| isFetching := Some false; promise := Some p |}).
Proof.
  intros Hk Hne. simpl.
  destruct (call_cold c a o cn st Hk Hne) as (Hr & Hps & He).
  set (r := returnCacheAndStartRefetch JSON_stringify (Some c) a o cn st) in *.
  clearbody r. do 3 (split; [done|]).
  assert (Hp : promises r.1 !! length (promises st)
               = Some (new_promise c a o cn (ColdDone cn (JSON_stringify o)))).
  { rewrite Hps, lookup_snoc_Some. by right. }
  split.
  - intros err. rewrite (settle_rejected _ _ _ err Hp) by done.
    eexists. split; [done|]. eexists _, err. simpl.
    by rewrite list_lookup_alter_eq, Hp.
  - intros result. apply entry_Some in He as (ℓ & Hl & He).
    destruct (settle_fulfilled_cold _ _ _ _ _ _ _ result Hp eq_refl eq_refl Hl He)
      as (st' & Hs & Hf & He').
    exists st'. done.
Qed.

(** C1 (amended): when the cache holds an entry for the key and its
    [isFetching] is not [true], a call sets [isFetching] to [true], makes one
    new fetch, and returns the promise the entry held, which is not the
    promise of the new fetch; when the new fetch fulfils, the entry holds
    the new promise and [isFetching] is [false]. *)
Theorem refresh_call_returns_stale c a o cn st e :
  reachable JSON_stringify st →
  entry st cn (JSON_stringify o) = Some e →
  truthy (isFetching e) = false →
  let r := returnCacheAndStartRefetch JSON_stringify (Some c) a o cn st in
  let p := length (promises st) in
  r.2 = Normal (promise e) ∧ promise e ≠ Some p ∧
  entry r.1 cn (JSON_stringify o) = Some (set_isFetching true e) ∧
  (∃ ℓ, promises r.1 = promises st ++ [new_promise c a o cn (RefreshDone ℓ p)]) ∧
  (∀ result, ∃ st', settle p (Fulfilled result) r.1 = Some st' ∧ fulfilled st' p ∧
     entry st' cn (JSON_stringify o)
     = Some {| isFetching := Some false; promise := Some p |}).
Proof.
  intros Hreach He Hf. simpl. apply entry_Some in He as (ℓ & Hl & He).
  destruct (call_refresh c a o cn st ℓ e Hl He Hf) as (Hr & Hps & Hl' & He').
  set (r := returnCacheAndStartRefetch JSON_stringify (Some c) a o cn st) in *.
  clearbody r. split; [done|]. split; [|split; [|split]].
  - intros Hp. apply reachable_Inv in Hreach.
    pose proof (stored_below _ _ _ _ Hreach He Hp). lia.
  - apply entry_Some. eauto.
  - eauto.
  - intros result.
    assert (Hp : promises r.1 !! length (promises st)
                 = Some (new_promise c a o cn (RefreshDone ℓ (length (promises st))))).
    { rewrite Hps, lookup_snoc_Some. by right. }
    destruct (settle_fulfilled_refresh _ _ _ _ _ _ _ result Hp eq_refl eq_refl Hl' He')
      as (st' & Hs & Hful & He'').
    exists st'. done.
Qed.


(** C7 (amended): in every reachable state at most one fetch is in
    flight for a key, and while one is the flag of the entry is up; a call
    that finds the flag up returns the promise the entry holds and makes no
    fetch; during a refresh that promise is an earlier one, already
    fulfilled, and during the first fetch of the key it is that fetch
    itself, still in flight. *)
Theorem one_fetch_in_flight_per_key st :
  reachable JSON_stringify st →
  (∀ p q cn a a' k,
     pending st p → pending st q →
     fetch_for JSON_stringify st p cn a k → fetch_for JSON_stringify st q cn a' k →
     p = q) ∧
  (∀ p cn a k,
     pending st p → fetch_for JSON_stringify st p cn a k →
     ∃ e, entry st cn k = Some e ∧ isFetching e = Some true) ∧
  (∀ c a o cn e,
     entry st cn (JSON_stringify o) = Some e → isFetching e = Some true →
     let r := returnCacheAndStartRefetch JSON_stringify c a o cn st in
     r.2 = Normal (promise e) ∧ promises r.1 = promises st) ∧
  (∀ p cn a k e q,
     pending st p → refresh_fetch st p → fetch_for JSON_stringify st p cn a k →
     entry st cn k = Some e → promise e = Some q →
     q ≠ p ∧ fulfilled st q) ∧
  (∀ p cn a k e,
     pending st p → cold_fetch st p → fetch_for JSON_stringify st p cn a k →
     entry st cn k = Some e → promise e = Some p).
Proof.
  intros Hreach. pose proof (reachable_Inv _ Hreach) as HI.
  split; [|split; [|split; [|split]]].
  - intros p q cn a a' k (ps & Hp & Hsp) (qs & Hq & Hsq) Hfp Hfq.
    apply fetch_for_key in Hfp as (ps' & Hp' & Hkp).
    apply fetch_for_key in Hfq as (qs' & Hq' & Hkq).
    assert (ps' = ps) as -> by congruence. assert (qs' = qs) as -> by congruence.
    apply (inv_unique _ _ HI p q ps qs); try done. congruence.
  - intros p cn a k (ps & Hp & Hsp) Hfp.
    apply fetch_for_key in Hfp as (ps' & Hp' & Hkp).
    assert (ps' = ps) as -> by congruence.
    destruct (inv_handlers _ _ HI p ps Hp) as (ℓ & Hl & _).
    destruct (inv_flag _ _ HI p ps ℓ Hp Hsp Hl) as (e & He & Hf).
    exists e. split; [|done]. apply entry_Some. exists ℓ. split; [|done].
    unfold loc_of in Hl. by rewrite Hkp in Hl.
  - intros c a o cn e He Hf. simpl. apply entry_Some in He as (ℓ & Hl & He).
    destruct (call_fetching c a o cn st ℓ e Hl He Hf) as (Hr & Hps & _). done.
  - intros p cn a k e q (ps & Hp & Hsp) (ps' & cache & Hp' & Hh) Hfp He Hq.
    assert (ps' = ps) as -> by congruence.
    apply fetch_for_key in Hfp as (ps' & Hp'' & Hkp).
    assert (ps' = ps) as -> by congruence.
    apply entry_Some in He as (ℓ & Hl & He).
    destruct (inv_handlers _ _ HI p ps Hp) as (ℓ0 & Hl0 & [Hc|Hr]); [congruence|].
    unfold loc_of in Hl0. rewrite Hkp in Hl0. simpl in Hl0.
    assert (ℓ0 = ℓ) as -> by congruence.
    assert (Hful : fulfilled st q) by (by eapply (inv_refresh _ _ HI p ps ℓ e q)).
    split; [|done]. intros ->. destruct Hful as (ps1 & r & Hp1 & Hs1). congruence.
  - intros p cn a k e (ps & Hp & Hsp) (ps' & cn' & k' & Hp' & Hh) Hfp He.
    assert (ps' = ps) as -> by congruence.
    apply fetch_for_key in Hfp as (ps' & Hp'' & Hkp).
    assert (ps' = ps) as -> by congruence.
    apply entry_Some in He as (ℓ & Hl & He).
    destruct (inv_handlers _ _ HI p ps Hp) as (ℓ0 & Hl0 & [Hc|Hr]); [|congruence].
    destruct (inv_cold _ _ HI p ps ℓ0 Hp Hsp Hc Hl0) as (e0 & He0 & Hpr).
    unfold loc_of in Hl0. rewrite Hkp in Hl0. simpl in Hl0.
    assert (ℓ0 = ℓ) as -> by congruence. congruence.
Qed.


(** C5 (amended): after a fetch for a key fails it is not retried, and no
    later call for that key makes a fetch either: the flag of the entry
    stays up, and every call returns the promise the entry holds. *)
Theorem failed_fetch_is_never_refetched st p cn a k err st1 :
  reachable JSON_stringify st →
  pending st p → fetch_for JSON_stringify st p cn a k →
  settle p (Rejected err) st = Some st1 →
  length (promises st1) = length (promises st) ∧
  ∀ evs st2 c a' o,
    run JSON_stringify evs st1 = Some st2 → JSON_stringify o = k →
    let r := returnCacheAndStartRefetch JSON_stringify c a' o cn st2 in
    promises r.1 = promises st2 ∧
    ∃ e, entry st2 cn k = Some e ∧ isFetching e = Some true ∧ r.2 = Normal (promise e).
Proof.
  intros Hreach (ps & Hp & Hsp) Hfp Hsettle.
  pose proof (reachable_Inv _ Hreach) as HI.
  split; [by eapply settle_length|].
  intros evs st2 c a' o Hrun <-. simpl.
  apply fetch_for_key in Hfp as (ps' & Hp' & Hkp).
  assert (ps' = ps) as -> by congruence.
  destruct (settle_quiet _ _ _ _ _ _ _ HI Hsettle Hp Hkp)
    as (ℓ & e0 & cb & Hl & He0 & Hf & Hh & Hcb & Hquiet).
  assert (HI1 : Inv JSON_stringify st1) by (by eapply Inv_settle).
  pose proof (quiet_run _ _ _ _ _ _ HI1 Hquiet Hrun (or_introl Hf)) as [He2 _].
  pose proof He2 as He2'. apply entry_Some in He2' as (ℓ2 & Hl2 & He2').
  destruct (call_fetching c a' o cn st2 ℓ2 e0 Hl2 He2' Hf) as (Hr & Hps & _).
  split; [done|]. exists e0. done.
Qed.


End CacheFacts.

(** * Facts about the helper *)

Section HelperFacts.

Context {Opts Controller Rows Pagination Data Self : Type}.
Variable JSON_stringify : Opts → string.
Variable empty_hash : Opts.
Variables has_id has_slug : Opts → bool.
Variable filter_string : Opts → option string.
Variable set_filter : string → Opts → Opts.
Variable empty_data : Data.
Variable apiVersion_of : Data → option string.
Variable error_of : Data → option string.
Variable resolvePaths : Data → Self → string → string.
Variable i18n_t : string → string.
Variable api : gmap string (gmap string Controller).
Variable slow_helper_log : Completion unit.

Abbreviation Options := (@Options Opts Rows Pagination Data Self).
Abbreviation State := (@State Opts Controller (@ApiResult Rows Pagination)).
Abbreviation the_frame := (frame_of empty_data error_of).
Abbreviation the_get :=
  (get JSON_stringify empty_hash has_id has_slug filter_string set_filter
     empty_data apiVersion_of error_of resolvePaths i18n_t api slow_helper_log).
Abbreviation the_catch := (reaches_catch empty_data error_of).

Implicit Types (options : option Options) (st : State) (self : Self) (resource : string).

Lemma RESOURCES_get_Undefined resource :
  RESOURCES_get resource = Undefined ↔
  (resource ∉ ["posts"; "tags"; "pages"; "authors"]) ∧ (resource ∉ Object_prototype).
Proof.
  unfold RESOURCES_get. destruct (RESOURCES !! resource) as [r|] eqn:E.
  - split; [done|]. intros [Hn _]. exfalso. apply Hn. unfold RESOURCES in E.
    repeat (apply lookup_insert_Some in E as [[<- _]|[_ E]]; [set_solver|]).
    apply lookup_singleton_Some in E as [<- _]. set_solver.
  - case_bool_decide as Hp; split; try done.
    + by intros [_ ?].
    + intros _. split; [|done]. intros Hin.
      repeat (apply elem_of_cons in Hin as [->|Hin]; [by vm_compute in E|]).
      by apply elem_of_nil in Hin.
Qed.

(** Without a block function the helper resolves to [undefined] and
    leaves the state alone. *)
Lemma get_without_block self resource options st :
  fn (default empty_options options) = None →
  the_get self resource options st = (st, Normal (Promise_resolve None)).
Proof. intros H. unfold get. rewrite H. done. Qed.

(** For a name [RESOURCES] has no property for, own or inherited, the
    helper renders the inverse block and leaves the state alone. *)
Lemma get_unknown_resource self resource options st f :
  fn (default empty_options options) = Some f →
  RESOURCES_get resource = Undefined →
  the_get self resource options st =
  (st, match call_inverse (default empty_options options) self
               (set_error (i18n_t "warnings.helpers.get.invalidResource")
                  (the_frame options)) with
       | Normal rendered => Normal (Promise_resolve (Some rendered))
       | Throw e => Throw e
       end).
Proof.
  intros Hf Hr. unfold get, frame_of. rewrite Hf, Hr. unfold bind, lift, ret.
  by destruct (call_inverse _ _ _).
Qed.

(** The chain [get] hangs on the promise of the cache. *)
Lemma get_chain self resource options st st' source chain :
  the_get self resource options st = (st', Normal (Promise_chain source chain)) →
  ∃ f, fn (default empty_options options) = Some f ∧
       chain = λ s, finally_ (catch_ (then_ s (success resource f (the_frame options)))
                                (error_handler (default empty_options options) self
                                   (the_frame options)))
                      slow_helper_log.
Proof.
  unfold get, frame_of.
  destruct (fn (default empty_options options)) as [f|]; [|by intros [= ]].
  unfold bind, lift, ret, throw.
  destruct (RESOURCES_get resource) as [r| |].
  - destruct (api_controller _ _ _) as [c|]; [|by intros [= ]].
    destruct (returnCacheAndStartRefetch _ _ _ _ _ _) as [st1 [[p|]|]]; intros [= _ _ <-].
    eauto.
  - destruct (api_controller _ _ _) as [c|]; [|by intros [= ]].
    destruct (returnCacheAndStartRefetch _ _ _ _ _ _) as [st1 [[p|]|]]; intros [= _ _ <-].
    eauto.
  - by destruct (call_inverse _ _ _).
Qed.

(** With an inverse block that renders, [get] throws only past its two
    guards, on lines 135-143. *)
Lemma get_throws self resource options st st' e :
  (∀ frame, ∃ rendered,
     call_inverse (default empty_options options) self frame = Normal rendered) →
  the_get self resource options st = (st', Throw e) →
  is_Some (fn (default empty_options options)) ∧ RESOURCES_get resource ≠ Undefined.
Proof.
  intros Hinv. unfold get.
  destruct (fn (default empty_options options)) as [f|]; [|by intros [= ]].
  unfold bind, lift, ret, throw.
  destruct (RESOURCES_get resource) as [r| |]; [by eauto..|].
  fold (the_frame options).
  destruct (Hinv (set_error (i18n_t "warnings.helpers.get.invalidResource")
                    (the_frame options))) as [rendered ->].
  by intros [= ].
Qed.

(** C9 (amended): [get] throws, and returns no promise, only past its
    two guards.  The promise it returns never rejects provided the inverse
    block renders without throwing, the callback of [finally] does not
    throw, and what the catch handler is called with (the reason the fetch
    is rejected with, or what the success handler throws) is not [null] or
    [undefined]: the error is then caught and the promise resolves with
    the inverse block rendered on the frame whose [error] is the message of
    the error. *)
Theorem get_promise_never_rejects self resource options st :
  (∀ frame, ∃ rendered,
     call_inverse (default empty_options options) self frame = Normal rendered) →
  slow_helper_log = Normal tt →
  match the_get self resource options st with
  | (_, Normal g) =>
      ∀ s,
        (∀ err, the_catch resource options s err → err ≠ Nullish) →
        (∃ v, get_settles g s = Fulfilled v) ∧
        (∀ source chain message,
           g = Promise_chain source chain →
           the_catch resource options s (ErrorObject message) →
           chain s = settled_of (call_inverse (default empty_options options) self
                                   (set_error message (the_frame options))))
  | (_, Throw e) =>
      is_Some (fn (default empty_options options)) ∧ RESOURCES_get resource ≠ Undefined
  end.
Proof.
  intros Hinv Hlog.
  destruct (the_get self resource options st) as [st' [g|e]] eqn:Hget;
    [|by eapply get_throws].
  intros s Hs.
  assert (Hchain : ∀ source chain message,
            g = Promise_chain source chain →
            the_catch resource options s (ErrorObject message) →
            chain s = settled_of (call_inverse (default empty_options options) self
                                    (set_error message (the_frame options)))).
  { intros source chain message -> Hc.
    destruct (get_chain _ _ _ _ _ _ _ Hget) as (f & Hf & ->).
    rewrite Hlog. unfold finally_, error_handler.
    destruct Hc as [->|(result & f' & -> & Hf' & Hthrow)]; simpl.
    - by destruct (call_inverse _ _ _).
    - assert (f' = f) as -> by congruence. rewrite Hthrow. simpl.
      by destruct (call_inverse _ _ _). }
  split; [|done].
  destruct g as [v|source chain]; simpl; [eauto|].
  destruct (get_chain _ _ _ _ _ _ _ Hget) as (f & Hf & ->).
  rewrite Hlog. unfold finally_, catch_, then_, error_handler.
  destruct s as [result|err].
  - destruct (success resource f (the_frame options) result) as [v|err] eqn:Hv; [eauto|].
    destruct err as [|message]; [by destruct (Hs Nullish); [right; eauto|]|].
    simpl. destruct (Hinv (set_error message (the_frame options))) as [out ->]. eauto.
  - destruct err as [|message]; [by destruct (Hs Nullish); [left|]|].
    simpl. destruct (Hinv (set_error message (the_frame options))) as [out ->]. eauto.
Qed.

End HelperFacts.

(** * The cache at work *)

Lemma demo_cold_reachable : reachable demo_stringify demo_cold.
Proof. exists [Call (Some tt) "browse" NoOptions "postsPublic"]. reflexivity. Defined.

Lemma demo_idle_reachable : reachable demo_stringify demo_idle.
Proof.
  exists [Call (Some tt) "browse" NoOptions "postsPublic";
          Settle 0 (Fulfilled (demo_result "first"))].
  vm_compute. reflexivity.
Defined.

Lemma demo_refreshing_reachable : reachable demo_stringify demo_refreshing.
Proof.
  exists [Call (Some tt) "browse" NoOptions "postsPublic";
          Settle 0 (Fulfilled (demo_result "first"));
          Call (Some tt) "browse" NoOptions "postsPublic"].
  vm_compute. reflexivity.
Defined.

(** The cold path on the empty cache. *)
Lemma cold_call_creates_entry_witness :
  entry_loc (init : DemoState) "postsPublic" (demo_stringify NoOptions) = None ∧
  demo_stringify NoOptions ≠ "browse" ∧
  (demo_call (Some tt) "browse" NoOptions "postsPublic" init).2 = Normal (Some 0).
Proof.
  assert (H1 : entry_loc (init : DemoState) "postsPublic" (demo_stringify NoOptions) = None)
    by reflexivity.
  assert (H2 : demo_stringify NoOptions ≠ "browse") by (simpl; discriminate).
  split; [exact H1|]. split; [exact H2|].
  exact (proj1 (cold_call_creates_entry demo_stringify tt "browse" NoOptions "postsPublic"
                  init H1 H2)).
Defined.

(** C8 as stated fails when the first fetch is rejected: the promise has
    settled and [isFetching] is still [true]. *)
Lemma rejected_cold_fetch_leaves_flag_up :
  entry_loc (init : DemoState) "postsPublic" "{}" = None ∧
  (demo_call (Some tt) "browse" NoOptions "postsPublic" init).2 = Normal (Some 0) ∧
  ∃ st', settle 0 (Rejected boom) demo_cold = Some st' ∧ rejected st' 0 ∧
         entry st' "postsPublic" "{}"
         = Some {| isFetching := Some true; promise := Some 0 |}.
Proof.
  split; [reflexivity|]. split; [reflexivity|].
  eexists. split; [reflexivity|]. split; [|reflexivity].
  eexists _, boom. split; reflexivity.
Qed.

(** The refresh path on the entry the first fetch has filled. *)
Lemma refresh_call_returns_stale_witness :
  entry demo_idle "postsPublic" (demo_stringify NoOptions)
  = Some {| isFetching := Some false; promise := Some 0 |} ∧
  (demo_call (Some tt) "browse" NoOptions "postsPublic" demo_idle).2 = Normal (Some 0) ∧
  Some 0 ≠ Some (length (promises demo_idle)).
Proof.
  assert (H1 : entry demo_idle "postsPublic" (demo_stringify NoOptions)
               = Some {| isFetching := Some false; promise := Some 0 |})
    by (vm_compute; reflexivity).
  split; [exact H1|].
  destruct (refresh_call_returns_stale demo_stringify tt "browse" NoOptions "postsPublic"
              demo_idle _ demo_idle_reachable H1 eq_refl) as (Hr & Hne & _).
  split; [exact Hr|exact Hne].
Defined.

(** C1 as stated fails when the refresh is rejected: the new fetch has
    settled, the entry still holds the old promise and [isFetching] is
    still [true]. *)
Lemma rejected_refresh_leaves_entry :
  entry demo_idle "postsPublic" "{}"
  = Some {| isFetching := Some false; promise := Some 0 |} ∧
  pending demo_refreshing 1 ∧ refresh_fetch demo_refreshing 1 ∧
  ∃ st', settle 1 (Rejected boom) demo_refreshing = Some st' ∧ rejected st' 1 ∧
         entry st' "postsPublic" "{}"
         = Some {| isFetching := Some true; promise := Some 0 |}.
Proof.
  split; [vm_compute; reflexivity|]. split; [|split].
  - eexists. split; vm_compute; reflexivity.
  - eexists _, _. split; vm_compute; reflexivity.
  - eexists. split; [vm_compute; reflexivity|]. split; [|vm_compute; reflexivity].
    eexists _, boom. split; vm_compute; reflexivity.
Qed.

(** C2 fails on the code: a call with action [read] finds the entry a
    call with action [browse] made for options with the same JSON text; it
    is handed the promise of the [browse] fetch and makes no fetch of its
    own, while the object made for [read] on line 193 stays empty.  The
    same happens through the helper. *)
Lemma entry_shared_across_actions :
  demo_stringify IdNull = demo_stringify IdInfinity ∧
  (let r1 := demo_call (Some tt) "browse" IdNull "postsPublic" init in
   let r2 := demo_call (Some tt) "read" IdInfinity "postsPublic" r1.1 in
   r1.2 = Normal (Some 0) ∧ r2.2 = Normal (Some 0) ∧
   fetch_for demo_stringify r2.1 0 "postsPublic" "browse" (demo_stringify IdNull) ∧
   promises r2.1 = promises r1.1 ∧
   entry r2.1 "postsPublic" "read" = Some empty_object) ∧
  (let g1 := demo_get "posts" (Some (demo_options IdNull (Some inverse_renders))) init in
   let g2 := demo_get "posts" (Some (demo_options IdInfinity (Some inverse_renders))) g1.1 in
   (∃ chain, g2.2 = Normal (Promise_chain 0 chain)) ∧
   fetch_for demo_stringify g2.1 0 "postsPublic" "browse" (demo_stringify IdNull) ∧
   length (promises g2.1) = 1).
Proof.
  split; [reflexivity|]. split.
  - simpl. split; [reflexivity|]. split; [vm_compute; reflexivity|]. split; [|split].
    + eexists. split; [vm_compute; reflexivity|]. split; [reflexivity|].
      split; reflexivity.
    + vm_compute. reflexivity.
    + vm_compute. reflexivity.
  - simpl. split; [|split].
    + eexists. vm_compute. reflexivity.
    + eexists. split; [vm_compute; reflexivity|]. split; [reflexivity|].
      split; reflexivity.
    + vm_compute. reflexivity.
Qed.



(** During the refresh of [posts] the one fetch in flight is promise 1 and
    the entry holds promise 0, which is fulfilled. *)
Lemma one_fetch_in_flight_per_key_witness :
  pending demo_refreshing 1 ∧ refresh_fetch demo_refreshing 1 ∧
  0 ≠ 1 ∧ fulfilled demo_refreshing 0.
Proof.
  assert (H1 : pending demo_refreshing 1).
  { eexists. split; vm_compute; reflexivity. }
  assert (H2 : refresh_fetch demo_refreshing 1).
  { eexists _, _. split; vm_compute; reflexivity. }
  assert (H3 : fetch_for demo_stringify demo_refreshing 1 "postsPublic" "browse" "{}").
  { eexists. split; [vm_compute; reflexivity|]. split; [reflexivity|]. split; reflexivity. }
  assert (H4 : entry demo_refreshing "postsPublic" "{}"
               = Some {| isFetching := Some true; promise := Some 0 |})
    by (vm_compute; reflexivity).
  destruct (one_fetch_in_flight_per_key demo_stringify demo_refreshing
              demo_refreshing_reachable) as (_ & _ & _ & Hold & _).
  split; [exact H1|]. split; [exact H2|].
  exact (Hold 1 "postsPublic" "browse" "{}" _ 0 H1 H2 H3 H4 eq_refl).
Defined.

(** C7 as stated fails during the first fetch of a key: the flag is up,
    a call is handed the promise the entry holds and makes no fetch, and
    that promise is the fetch in flight; nothing has resolved yet. *)
Lemma first_fetch_window_serves_the_fetch_in_flight :
  reachable demo_stringify demo_cold ∧
  entry demo_cold "postsPublic" "{}"
  = Some {| isFetching := Some true; promise := Some 0 |} ∧
  (demo_call (Some tt) "browse" NoOptions "postsPublic" demo_cold).2 = Normal (Some 0) ∧
  promises (demo_call (Some tt) "browse" NoOptions "postsPublic" demo_cold).1
  = promises demo_cold ∧
  pending demo_cold 0 ∧ ∀ q, ¬ fulfilled demo_cold q.
Proof.
  split; [exact demo_cold_reachable|]. do 3 (split; [reflexivity|]). split.
  - eexists. split; reflexivity.
  - intros [|q] (ps & r & Hp & Hs); [|by destruct q].
    vm_compute in Hp. injection Hp as <-. discriminate Hs.
Qed.



(** After the failure of the first fetch a call makes no fetch. *)
Lemma failed_fetch_is_never_refetched_witness :
  settle 0 (Rejected boom) demo_cold = Some demo_failed ∧
  length (promises demo_failed) = length (promises demo_cold) ∧
  promises (demo_call (Some tt) "browse" NoOptions "postsPublic" demo_failed).1
  = promises demo_failed.
Proof.
  assert (H1 : pending demo_cold 0).
  { eexists. split; reflexivity. }
  assert (H2 : fetch_for demo_stringify demo_cold 0 "postsPublic" "browse" "{}").
  { eexists. split; [reflexivity|]. split; [reflexivity|]. split; reflexivity. }
  assert (H3 : settle 0 (Rejected boom) demo_cold = Some demo_failed) by reflexivity.
  destruct (failed_fetch_is_never_refetched demo_stringify demo_cold 0 "postsPublic"
              "browse" "{}" boom demo_failed demo_cold_reachable H1 H2 H3) as [Hlen Hnext].
  split; [exact H3|]. split; [exact Hlen|].
  exact (proj1 (Hnext [] demo_failed (Some tt) "browse" NoOptions eq_refl eq_refl)).
Defined.

(** C5 as stated fails: the first fetch for the key has failed, and the
    next call for the key makes no fetch; it is handed the rejected
    promise. *)
Lemma call_after_failure_makes_no_fetch :
  settle 0 (Rejected boom) demo_cold = Some demo_failed ∧
  (demo_call (Some tt) "browse" NoOptions "postsPublic" demo_failed).2 = Normal (Some 0) ∧
  rejected demo_failed 0 ∧
  promises (demo_call (Some tt) "browse" NoOptions "postsPublic" demo_failed).1
  = promises demo_failed ∧
  length (promises demo_failed) = 1.
Proof.
  split; [reflexivity|]. split; [reflexivity|]. split; [|split; reflexivity].
  eexists _, boom. split; reflexivity.
Qed.



(** * The helper at work *)

(** The fetch of [{{#get "posts"}}] fails and the promise of the helper
    is fulfilled, with the inverse block rendered on the error. *)
Lemma get_promise_never_rejects_witness :
  (∃ v, get_settles demo_promise (Rejected boom) = Fulfilled v) ∧
  get_settles demo_promise (Rejected boom) = Fulfilled (Some "boom").
Proof.
  assert (Hinv : ∀ frame, ∃ rendered,
            call_inverse (default empty_options
                            (Some (demo_options NoOptions (Some inverse_renders))))
              tt frame = Normal rendered).
  { intros frame. eexists. reflexivity. }
  assert (Hs : ∀ err, reaches_catch None (λ _, None) "posts"
                        (Some (demo_options NoOptions (Some inverse_renders)))
                        (Rejected boom) err → err ≠ Nullish).
  { intros err [[= <-]|(result & f & Hr & _)]; discriminate. }
  split; [|vm_compute; reflexivity].
  exact (proj1 (get_promise_never_rejects demo_stringify NoOptions demo_has_id (λ _, false)
                  (λ _, None) (λ _ o, o) None id (λ _, None) (λ _ _ filter, filter) id demo_api
                  (Normal tt) tt "posts"
                  (Some (demo_options NoOptions (Some inverse_renders)))
                  init Hinv eq_refl (Rejected boom) Hs)).
Defined.

(** C9 as stated fails in four ways.  The inverse block throws: the fetch
    fails, the error handler calls the inverse block, and the promise of
    the helper is rejected.  The fetch is rejected with [null]: reading its
    [message] throws, and the promise is rejected although the inverse
    block would render.  The callback of [finally] throws: the promise is
    rejected although the block has rendered.  The frame has no API
    version: the helper throws and returns no promise. *)
Lemma helper_promise_can_reject :
  (∃ source chain,
     (demo_get "posts" (Some (demo_options NoOptions (Some inverse_throws))) init).2
     = Normal (Promise_chain source chain) ∧
     get_settles (Promise_chain source chain) (Rejected (ErrorObject "fetch failed"))
     = Rejected boom) ∧
  get_settles demo_promise (Rejected Nullish) = Rejected TypeError ∧
  (∃ source chain,
     (demo_get_logging (Throw boom) "posts"
        (Some (demo_options NoOptions (Some inverse_renders))) init).2
     = Normal (Promise_chain source chain) ∧
     get_settles (Promise_chain source chain) (Fulfilled (demo_result "first"))
     = Rejected boom) ∧
  (demo_get "posts" (Some demo_options_unversioned) init).2 = Throw TypeError.
Proof.
  split; [|split; [|split]].
  - eexists _, _. split; [vm_compute; reflexivity|]. vm_compute. reflexivity.
  - vm_compute. reflexivity.
  - eexists _, _. split; [vm_compute; reflexivity|]. vm_compute. reflexivity.
  - vm_compute. reflexivity.
Qed.

(** C10 fails on the code for a name every object inherits:
    [RESOURCES["constructor"]] is truthy, the helper goes on with an
    [undefined] controller, [returnCacheAndStartRefetch] stores two objects
    in the cache and then throws. *)
Lemma inherited_resource_name_passes_guard :
  ("constructor" ∉ ["posts"; "tags"; "pages"; "authors"]) ∧
  RESOURCES_get "constructor" = Inherited ∧
  let r := demo_get "constructor" (Some (demo_options NoOptions (Some inverse_renders)))
             init in
  r.2 = Throw TypeError ∧
  entry r.1 "undefined" "browse" = Some empty_object ∧
  cachedResults r.1 ≠ cachedResults (init : DemoState).
Proof.
  split; [|split; [reflexivity|]].
  - intros H. repeat (apply elem_of_cons in H as [H|H]; [discriminate H|]).
    by apply elem_of_nil in H.
  - simpl. split; [vm_compute; reflexivity|]. split; [vm_compute; reflexivity|].
    intros H. apply (f_equal (λ m, m !! "undefined")) in H. vm_compute in H. discriminate H.
Qed.

(** What does hold of the two guards of the helper. *)
Lemma demo_get_without_block :
  demo_get "posts" None init = (init, Normal (Promise_resolve None)).
Proof. reflexivity. Qed.

Lemma demo_get_unknown_resource :
  demo_get "comments" (Some (demo_options NoOptions (Some inverse_renders))) init
  = (init, Normal (Promise_resolve (Some "warnings.helpers.get.invalidResource"))).
Proof. vm_compute. reflexivity. Qed.

(** * More about the cache *)

Section CacheCoverage.

Context {Opts Controller Result : Type}.
Variable JSON_stringify : Opts → string.
Abbreviation State := (@State Opts Controller Result).
Abbreviation PromiseState := (@PromiseState Opts Controller Result).
Implicit Types (st : State) (cn k a : string) (ℓ : loc) (p q : PromiseId).

(** *** A step, seen through the entries *)

Lemma entry_valid st cn k ℓ :
  Inv JSON_stringify st → entry_loc st cn k = Some ℓ → is_Some (entry st cn k).
Proof.
  intros HI Hl. unfold entry. rewrite Hl. simpl.
  apply lookup_lt_is_Some. by eapply inv_valid.
Qed.

Lemma ensure_entries cn a st :
  Inv JSON_stringify st →
  ∀ cn' k', entry (ensure_objects cn a st).1 cn' k' =
            if decide (cn' = cn ∧ k' = a) then Some (default empty_object (entry st cn a))
            else entry st cn' k'.
Proof.
  intros HI cn' k'. destruct (entry_loc st cn a) as [ℓ|] eqn:Ha.
  - rewrite ensure_objects_present by done. case_decide as Hd; [|done].
    destruct Hd as [-> ->]. by destruct (entry_valid _ _ _ _ HI Ha) as [e ->].
  - destruct (ensure_objects_absent cn a st Ha) as (Hh & _ & Hl).
    unfold entry at 1. rewrite Hl. case_decide as Hd.
    + simpl. rewrite Hh, lookup_app_r, Nat.sub_diag by done. simpl.
      unfold entry. by rewrite Ha.
    + unfold entry. destruct (entry_loc st cn' k') as [ℓ|] eqn:Hl'; [|done]. simpl.
      rewrite Hh. apply lookup_app_l. by eapply inv_valid.
Qed.

(** What the second half of a call does to the promises and to the
    entries: it touches the entry of its key only. *)
Lemma fetch_entries c a o cn st :
  Inv JSON_stringify st → is_Some (cachedResults st !! cn) →
  let r := lookup_or_fetch JSON_stringify c a o cn st in
  let k := JSON_stringify o in
  ∃ nps upd,
    promises r.1 = promises st ++ nps ∧
    (∀ cn' k', entry r.1 cn' k' = if decide (cn' = cn ∧ k' = k) then upd
                                  else entry st cn' k') ∧
    ((entry st cn k = None ∧ upd = None ∧ nps = [] ∧ c = None ∧ r.2 = Throw TypeError) ∨
     (∃ c0, entry st cn k = None ∧ c = Some c0 ∧
            nps = [new_promise c0 a o cn (ColdDone cn k)] ∧
            upd = Some {| isFetching := Some true;
                          promise := Some (length (promises st)) |}) ∨
     (∃ e, entry st cn k = Some e ∧ isFetching e = Some true ∧ upd = Some e ∧ nps = []) ∨
     (∃ e, entry st cn k = Some e ∧ truthy (isFetching e) = false ∧
           upd = Some (set_isFetching true e) ∧
           (c = None ∧ nps = [] ∧ r.2 = Throw TypeError ∨
            ∃ c0 ℓ, c = Some c0 ∧ entry_loc st cn k = Some ℓ ∧
                    nps = [new_promise c0 a o cn (RefreshDone ℓ (length (promises st)))]))).
Proof.
  intros HI Hc. simpl.
  destruct (entry_loc st cn (JSON_stringify o)) as [ℓ|] eqn:Hk.
  - destruct (entry_valid _ _ _ _ HI Hk) as [e He].
    pose proof He as He'. apply entry_Some in He' as (ℓ' & Hl' & Hh).
    assert (ℓ' = ℓ) as -> by congruence.
    assert (Hother : ∀ (st2 : State) f, cachedResults st2 = cachedResults st →
              heap st2 = alter f ℓ (heap st) →
              ∀ cn' k', entry st2 cn' k' =
                        if decide (cn' = cn ∧ k' = JSON_stringify o) then Some (f e)
                        else entry st cn' k').
    { intros st2 f Hcr Hheap cn' k'. unfold entry at 1, entry_loc. rewrite Hcr.
      fold (entry_loc st cn' k'). case_decide as Hd.
      - destruct Hd as [-> ->]. rewrite Hk. simpl.
        by rewrite Hheap, list_lookup_alter_eq, Hh.
      - unfold entry. destruct (entry_loc st cn' k') as [ℓ1|] eqn:Hl1; [|done]. simpl.
        rewrite Hheap, list_lookup_alter_ne; [done|]. intros ->. apply Hd.
        by eapply (inv_inj _ _ HI). }
    destruct (truthy (isFetching e)) eqn:Hf.
    + rewrite (lookup_or_fetch_fetching _ c a o cn st ℓ Hk); [|by rewrite Hh].
      exists [], (Some e). split; [by rewrite app_nil_r|]. split.
      * intros cn' k'. case_decide as Hd; [|done]. by destruct Hd as [-> ->].
      * right. right. left. exists e. split; [done|]. split; [|done].
        destruct (isFetching e) as [[]|]; done.
    + destruct c as [c0|].
      * destruct (lookup_or_fetch_refresh _ c0 a o cn st ℓ Hk) as (_ & Hcr & Hheap & Hps);
          [by rewrite Hh|].
        eexists _, (Some (set_isFetching true e)). split; [done|]. split.
        -- by apply Hother.
        -- right. right. right. exists e. do 3 (split; [done|]). right. by exists c0, ℓ.
      * rewrite (lookup_or_fetch_refresh_throw _ a o cn st ℓ Hk); [|by rewrite Hh].
        exists [], (Some (set_isFetching true e)). split; [by rewrite app_nil_r|]. split.
        -- by apply Hother.
        -- right. right. right. exists e. do 3 (split; [done|]). by left.
  - assert (He : entry st cn (JSON_stringify o) = None) by (unfold entry; by rewrite Hk).
    destruct c as [c0|].
    + destruct (lookup_or_fetch_cold _ c0 a o cn st Hk Hc) as (_ & Hheap & Hps & Hl).
      eexists _, _. split; [done|]. split.
      * intros cn' k'. unfold entry at 1. rewrite Hl. case_decide as Hd.
        -- simpl. by rewrite Hheap, lookup_app_r, Nat.sub_diag.
        -- unfold entry. destruct (entry_loc st cn' k') as [ℓ1|] eqn:Hl1; [|done]. simpl.
           rewrite Hheap. apply lookup_app_l. by eapply inv_valid.
      * right. left. by exists c0.
    + rewrite lookup_or_fetch_cold_throw by done.
      exists [], None. split; [by rewrite app_nil_r|]. split.
      * intros cn' k'. case_decide as Hd; [|done]. by destruct Hd as [-> ->].
      * by left.
Qed.

(** What a settlement does to the entries: on fulfilment the callback
    updates the entry of the key of the fetch, and nothing else changes. *)
Lemma settle_entries st p s st' :
  Inv JSON_stringify st → settle p s st = Some st' →
  ∃ ps cb e, promises st !! p = Some ps ∧ status ps = None ∧ handlers ps = [cb] ∧
    entry st (key_of JSON_stringify ps).1 (key_of JSON_stringify ps).2 = Some e ∧
    isFetching e = Some true ∧
    promises st' = alter (set_status s) p (promises st) ∧
    ∀ cn' k', entry st' cn' k' =
      match s with
      | Fulfilled _ =>
          if decide ((cn', k') = key_of JSON_stringify ps) then Some (done_entry cb e)
          else entry st cn' k'
      | Rejected _ => entry st cn' k'
      end.
Proof.
  intros HI Hsettle.
  destruct (settle_spec _ _ _ _ _ HI Hsettle)
    as (ps & ℓ & cb & Hp & Hs & Hl & Hh & Hcb & Hprom & Hcr & Hheap).
  destruct (inv_flag _ _ HI p ps ℓ Hp Hs Hl) as (e & He & Hf).
  exists ps, cb, e. do 3 (split; [done|]). split; [|split; [done|split; [done|]]].
  { apply entry_Some. eauto. }
  intros cn' k'. unfold entry at 1, entry_loc. rewrite Hcr. fold (entry_loc st cn' k').
  unfold loc_of in Hl. destruct s as [r|err].
  - case_decide as Hd.
    + rewrite <- Hd in Hl. simpl in Hl. rewrite Hl. simpl.
      by rewrite Hheap, list_lookup_alter_eq, He.
    + unfold entry. destruct (entry_loc st cn' k') as [ℓ1|] eqn:Hl1; [|done]. simpl.
      rewrite Hheap, list_lookup_alter_ne; [done|]. intros ->. apply Hd.
      destruct (inv_inj _ _ HI _ _ _ _ _ Hl1 Hl) as [-> ->].
      by destruct (key_of JSON_stringify ps).
  - unfold entry. by rewrite Hheap.
Qed.

Lemma step_keeps_entry st ev st' cn k e :
  Inv JSON_stringify st → step JSON_stringify st ev = Some st' →
  entry st cn k = Some e →
  ∃ e', entry st' cn k = Some e' ∧ (is_Some (promise e) → is_Some (promise e')).
Proof.
  intros HI Hstep He. destruct ev as [c a o cn0|p s]; simpl in Hstep.
  - injection Hstep as <-.
    destruct (call_keeps_promise JSON_stringify c a o cn0 st cn k e He) as (e' & He' & Hpr).
    exists e'. split; [done|]. by rewrite Hpr.
  - destruct (settle_entries _ _ _ _ HI Hstep)
      as (ps & cb & e0 & Hp & Hs & Hh & He0 & Hf & Hprom & Hent).
    rewrite Hent. destruct s as [r|err]; [|eauto].
    case_decide as Hd; [|eauto]. eexists. split; [done|].
    rewrite <- Hd in He0. simpl in He0. assert (e0 = e) as -> by congruence.
    by destruct cb.
Qed.

(** *** Without failures a raised flag means a fetch in flight *)

Lemma Live_step st ev st' :
  Inv JSON_stringify st → Live JSON_stringify st → clean JSON_stringify st ev →
  step JSON_stringify st ev = Some st' → Live JSON_stringify st'.
Proof.
  intros HI HL Hclean Hstep. destruct ev as [c a o cn|p s]; simpl in *.
  - injection Hstep as <-. destruct Hclean as [res Hres]. revert Hres.
    rewrite rcasr_split. intros Hres.
    assert (HL1 : Live JSON_stringify (ensure_objects cn a st).1).
    { intros cn' k' e. rewrite (ensure_entries cn a st HI).
      destruct (ensure_objects_keeps cn a st) as (-> & _).
      case_decide as Hd; [|by apply HL]. destruct Hd as [-> ->].
      destruct (entry st cn a) as [e0|] eqn:He0; simpl.
      - intros [= <-]. by apply HL.
      - by intros [= <-]. }
    pose proof (Inv_ensure JSON_stringify cn a st HI) as HI1.
    pose proof (ensure_objects_controller cn a st) as Hc.
    set (st1 := (ensure_objects cn a st).1) in *. clearbody st1.
    destruct (fetch_entries c a o cn st1 HI1 Hc) as (nps & upd & Hps & Hent & Hcase).
    simpl in Hcase.
    assert (Hkeep : ∀ cn' k' e, entry st1 cn' k' = Some e → isFetching e = Some true →
              ∃ p ps, promises (lookup_or_fetch JSON_stringify c a o cn st1).1 !! p
                      = Some ps ∧ status ps = None ∧ key_of JSON_stringify ps = (cn', k')).
    { intros cn' k' e He Hf. destruct (HL1 cn' k' e He Hf) as (p & ps & Hp & Hs & Hk).
      exists p, ps. rewrite Hps. split; [by apply lookup_app_l_Some|done]. }
    assert (Hnew : ∀ c0 cb, nps = [new_promise c0 a o cn cb] →
              ∃ p ps, promises (lookup_or_fetch JSON_stringify c a o cn st1).1 !! p
                      = Some ps ∧ status ps = None ∧
                      key_of JSON_stringify ps = (cn, JSON_stringify o)).
    { intros c0 cb ->. exists (length (promises st1)), (new_promise c0 a o cn cb).
      rewrite Hps. split; [|done]. rewrite lookup_snoc_Some. by right. }
    intros cn' k' e. rewrite Hent. case_decide as Hd; [|by apply Hkeep].
    destruct Hd as [-> ->].
    destruct Hcase as [(_ & _ & _ & _ & Hthrow)|[(c1 & _ & _ & Hn & ->)|
                       [(e0 & He0 & Hf0 & -> & _)|
                        (e0 & He0 & Hf0 & -> & [(_ & _ & Hthrow)|(c1 & ℓ & _ & _ & Hn)])]]].
    + congruence.
    + intros _ _. by eapply Hnew.
    + intros [= <-] _. by eapply Hkeep.
    + congruence.
    + intros _ _. by eapply Hnew.
  - destruct Hclean as [r ->].
    destruct (settle_entries _ _ _ _ HI Hstep)
      as (ps & cb & e0 & Hp & Hs & Hh & He0 & Hf & Hprom & Hent).
    intros cn' k' e. rewrite Hent. case_decide as Hd.
    + intros [= <-]. by destruct cb.
    + intros He Hfe. destruct (HL cn' k' e He Hfe) as (q & qs & Hq & Hsq & Hk).
      exists q, qs. rewrite Hprom, list_lookup_alter_ne; [done|].
      intros <-. apply Hd. assert (qs = ps) as -> by congruence. done.
Qed.

Lemma Live_run evs st st' :
  Inv JSON_stringify st → Live JSON_stringify st → all_clean JSON_stringify evs st →
  run JSON_stringify evs st = Some st' → Live JSON_stringify st'.
Proof.
  revert st. induction evs as [|ev evs IH]; simpl; intros st HI HL Hall Hrun.
  - by injection Hrun as <-.
  - destruct (step JSON_stringify st ev) as [st1|] eqn:Hstep; [|done].
    destruct Hall as [Hev Hall].
    apply (IH st1); [by eapply Inv_step|by eapply Live_step|done..].
Qed.

(** *** One unfulfilled fetch per key *)

Lemma status_cases (ps : PromiseState) :
  (∃ r, status ps = Some (Fulfilled r)) ∨ unfulfilled ps.
Proof.
  destruct (status ps) as [[r|err]|] eqn:E; [by eauto|right|right]; intros r; congruence.
Qed.

Lemma promise_has_entry st p ps :
  Inv JSON_stringify st → promises st !! p = Some ps →
  is_Some (entry st (key_of JSON_stringify ps).1 (key_of JSON_stringify ps).2).
Proof.
  intros HI Hp. destruct (inv_handlers _ _ HI p ps Hp) as (ℓ & Hl & _).
  by eapply entry_valid.
Qed.

Lemma Tidy_init : Tidy JSON_stringify (init : State).
Proof. split; simpl; intros; by rewrite lookup_nil in *. Qed.

Lemma Tidy_ensure cn a st :
  Inv JSON_stringify st → Tidy JSON_stringify st →
  Tidy JSON_stringify (ensure_objects cn a st).1.
Proof.
  intros HI [T1 T2]. destruct (ensure_objects_keeps cn a st) as (Hps & _).
  split; rewrite ?Hps; [done|].
  intros cn' k' e p ps. rewrite (ensure_entries cn a st HI).
  case_decide as Hd; [|by apply T2]. destruct Hd as [-> ->].
  destruct (entry st cn a) as [e0|] eqn:He0; simpl.
  - intros [= <-]. by apply T2.
  - intros _ _ Hp Hk. destruct (promise_has_entry _ _ _ HI Hp) as [e1 He1].
    rewrite Hk in He1. simpl in He1. congruence.
Qed.

Lemma Tidy_fetch c a o cn st :
  Inv JSON_stringify st → is_Some (cachedResults st !! cn) → Tidy JSON_stringify st →
  Tidy JSON_stringify (lookup_or_fetch JSON_stringify c a o cn st).1.
Proof.
  intros HI Hc [T1 T2].
  destruct (fetch_entries c a o cn st HI Hc) as (nps & upd & Hps & Hent & Hcase).
  set (st2 := (lookup_or_fetch JSON_stringify c a o cn st).1) in *. clearbody st2.
  assert (Hnps : nps = [] ∨
            ∃ np, nps = [np] ∧ status np = None ∧
                  key_of JSON_stringify np = (cn, JSON_stringify o) ∧
                  (∀ q qs, promises st !! q = Some qs →
                           key_of JSON_stringify qs = (cn, JSON_stringify o) →
                           ∃ r, status qs = Some (Fulfilled r)) ∧
                  ∃ e, upd = Some e ∧ isFetching e = Some true).
  { destruct Hcase as [(_ & _ & -> & _)|[(c0 & He & _ & -> & ->)|[(e & _ & _ & _ & ->)|
                       (e & He & Hf & -> & [(_ & -> & _)|(c0 & ℓ & _ & _ & ->)])]]];
      [by left| |by left|by left|].
    - right. eexists. split; [done|]. do 2 (split; [done|]). split; [|by eauto].
      intros q qs Hq Hk. destruct (promise_has_entry _ _ _ HI Hq) as [e1 He1].
      rewrite Hk in He1. simpl in He1. congruence.
    - right. eexists. split; [done|]. do 2 (split; [done|]). split; [|by eauto].
      intros q qs Hq Hk. by eapply T2. }
  assert (Hold : ∀ cn' k' e, entry st2 cn' k' = Some e → truthy (isFetching e) = false →
            entry st cn' k' = Some e).
  { intros cn' k' e. rewrite Hent. case_decide as Hd; [|done]. destruct Hd as [-> ->].
    destruct Hcase as [(He & -> & _)|[(c0 & _ & _ & _ & ->)|[(e0 & He0 & Hf0 & -> & _)|
                       (e0 & _ & _ & -> & _)]]].
    - done.
    - by intros [= <-].
    - by intros [= <-].
    - by intros [= <-]. }
  destruct Hnps as [->|(np & -> & Hsn & Hkn & Hful & _)].
  - rewrite app_nil_r in Hps. split; rewrite Hps; [done|].
    intros cn' k' e p ps He Hf. apply (T2 cn' k' e); [by apply Hold|done].
  - assert (Hlook : ∀ q qs, promises st2 !! q = Some qs →
              promises st !! q = Some qs ∨ (q = length (promises st) ∧ qs = np)).
    { intros q qs. rewrite Hps, lookup_snoc_Some. intros [[_ ?]|[-> <-]]; eauto. }
    split.
    + intros p q ps qs Hp Hq Hup Huq Hk.
      apply Hlook in Hp as [Hp|[-> ->]]; apply Hlook in Hq as [Hq|[-> ->]]; try done.
      * by eapply T1.
      * destruct (Hful p ps Hp) as [r Hr]; [congruence|]. by destruct (Hup r).
      * destruct (Hful q qs Hq) as [r Hr]; [congruence|]. by destruct (Huq r).
    + intros cn' k' e p ps He Hfe Hp Hk. apply Hlook in Hp as [Hp|[-> ->]].
      * eapply T2; [by apply Hold|done..].
      * exfalso. revert He. rewrite Hent. rewrite Hkn in Hk. injection Hk as <- <-.
        rewrite decide_True by done.
        destruct Hcase as [(_ & -> & _)|[(c0 & _ & _ & _ & ->)|[(e0 & _ & Hf0 & -> & _)|
                           (e0 & _ & _ & -> & _)]]]; intros [= <-]; try done.
        by rewrite Hf0 in Hfe.
Qed.

Lemma Tidy_settle st p s st' :
  Inv JSON_stringify st → Tidy JSON_stringify st → settle p s st = Some st' →
  Tidy JSON_stringify st'.
Proof.
  intros HI [T1 T2] Hsettle.
  destruct (settle_entries _ _ _ _ HI Hsettle)
    as (ps & cb & e0 & Hp & Hs & Hh & He0 & Hf & Hprom & Hent).
  assert (Hups : unfulfilled ps) by (intros r; congruence).
  assert (Hlook : ∀ q qs, promises st' !! q = Some qs →
            ∃ qs0, promises st !! q = Some qs0 ∧
                   key_of JSON_stringify qs = key_of JSON_stringify qs0 ∧
                   (q = p ∧ status qs = Some s ∨ q ≠ p ∧ qs = qs0)).
  { intros q qs. rewrite Hprom, list_lookup_alter. case_decide as Hd.
    - subst q. rewrite Hp. simpl. intros [= <-]. exists ps. split; [done|]. split; [done|].
      by left.
    - intros Hq. exists qs. do 2 (split; [done|]). by right. }
  split.
  - intros q1 q2 qs1 qs2 Hq1 Hq2 Hu1 Hu2 Hk.
    destruct (Hlook _ _ Hq1) as (qa & Hqa & Hka & Hca).
    destruct (Hlook _ _ Hq2) as (qb & Hqb & Hkb & Hcb).
    apply (T1 q1 q2 qa qb); try done; [| |congruence].
    + destruct Hca as [[-> _]|[_ ->]]; [|done]. by assert (qa = ps) as -> by congruence.
    + destruct Hcb as [[-> _]|[_ ->]]; [|done]. by assert (qb = ps) as -> by congruence.
  - intros cn' k' e q qs He Hfe Hq Hk.
    destruct (Hlook _ _ Hq) as (qa & Hqa & Hka & Hca).
    assert (Hkey : ∀ r, s = Fulfilled r → (cn', k') = key_of JSON_stringify ps →
              ∃ r', status qs = Some (Fulfilled r')).
    { intros r -> Hkp. destruct Hca as [[_ Hsq]|[Hne ->]]; [by eauto|].
      destruct (status_cases qa) as [?|Hu]; [done|].
      destruct Hne. apply (T1 q p qa ps); try done. congruence. }
    revert He. rewrite Hent. destruct s as [r|err].
    + case_decide as Hd; [intros _; by eapply Hkey|].
      intros He. destruct (T2 cn' k' e q qa He Hfe Hqa) as [r' Hr']; [congruence|].
      destruct Hca as [[-> _]|[_ ->]]; [|by eauto].
      assert (qa = ps) as -> by congruence. congruence.
    + intros He. destruct (T2 cn' k' e q qa He Hfe Hqa) as [r' Hr']; [congruence|].
      destruct Hca as [[-> _]|[_ ->]]; [|by eauto].
      assert (qa = ps) as -> by congruence. congruence.
Qed.

Lemma Tidy_run evs st st' :
  Inv JSON_stringify st → Tidy JSON_stringify st →
  run JSON_stringify evs st = Some st' → Tidy JSON_stringify st'.
Proof.
  revert st. induction evs as [|ev evs IH]; simpl; intros st HI HT Hrun.
  - by injection Hrun as <-.
  - destruct (step JSON_stringify st ev) as [st1|] eqn:Hstep; [|done].
    apply (IH st1); [by eapply Inv_step| |done].
    destruct ev as [c a o cn|p s]; simpl in Hstep.
    + injection Hstep as <-. rewrite rcasr_split.
      apply Tidy_fetch; [by apply Inv_ensure|apply ensure_objects_controller|].
      by apply Tidy_ensure.
    + by eapply Tidy_settle.
Qed.

(** *** Entries without a promise *)

Lemma Filled_ensure cn a st :
  Inv JSON_stringify st → Filled st → a = "browse" ∨ a = "read" →
  Filled (ensure_objects cn a st).1.
Proof.
  intros HI HF Ha cn' k' e. rewrite (ensure_entries cn a st HI).
  case_decide as Hd; [|by apply HF]. destruct Hd as [-> ->]. done.
Qed.

Lemma Filled_fetch c a o cn st :
  Inv JSON_stringify st → is_Some (cachedResults st !! cn) → Filled st →
  Filled (lookup_or_fetch JSON_stringify c a o cn st).1.
Proof.
  intros HI Hc HF.
  destruct (fetch_entries c a o cn st HI Hc) as (nps & upd & _ & Hent & Hcase).
  intros cn' k' e. rewrite Hent. case_decide as Hd; [|by apply HF].
  destruct Hd as [-> ->].
  destruct Hcase as [(_ & -> & _)|[(c0 & _ & _ & _ & ->)|[(e0 & He0 & _ & -> & _)|
                     (e0 & He0 & _ & -> & _)]]].
  - done.
  - by intros [= <-].
  - intros [= <-]. by apply (HF cn _ e0).
  - intros [= <-]. simpl. by apply (HF cn _ e0).
Qed.

Lemma Filled_step st ev st' :
  Inv JSON_stringify st → Filled st → helper_call ev →
  step JSON_stringify st ev = Some st' → Filled st'.
Proof.
  intros HI HF Hev Hstep. destruct ev as [c a o cn|p s]; simpl in *.
  - injection Hstep as <-. rewrite rcasr_split.
    apply Filled_fetch; [by apply Inv_ensure|apply ensure_objects_controller|].
    by apply Filled_ensure.
  - destruct (settle_entries _ _ _ _ HI Hstep)
      as (ps & cb & e0 & Hp & Hs & Hh & He0 & Hf & Hprom & Hent).
    intros cn' k' e. rewrite Hent. destruct s as [r|err]; [|by apply HF].
    case_decide as Hd; [|by apply HF]. rewrite <- Hd in He0. simpl in He0.
    intros [= <-]. destruct cb; simpl; [done|]. by apply (HF cn' k' e0).
Qed.

Lemma Filled_run evs st st' :
  Inv JSON_stringify st → Filled st → Forall helper_call evs →
  run JSON_stringify evs st = Some st' → Filled st'.
Proof.
  revert st. induction evs as [|ev evs IH]; simpl; intros st HI HF Hall Hrun.
  - by injection Hrun as <-.
  - destruct (step JSON_stringify st ev) as [st1|] eqn:Hstep; [|done].
    apply Forall_cons in Hall as [Hev Hall].
    apply (IH st1); [by eapply Inv_step|by eapply Filled_step|done..].
Qed.


Lemma call_at_most_one c a o cn st :
  length (promises (returnCacheAndStartRefetch JSON_stringify c a o cn st).1)
  ≤ S (length (promises st)).
Proof.
  rewrite rcasr_split.
  destruct (ensure_objects_keeps cn a st) as (Hp & _).
  pose proof (ensure_objects_controller cn a st) as Hc.
  set (st1 := (ensure_objects cn a st).1) in *. clearbody st1. rewrite <- Hp.
  destruct (entry_loc st1 cn (JSON_stringify o)) as [ℓ|] eqn:Hk.
  - destruct (truthy (heap st1 !! ℓ ≫= isFetching)) eqn:Hf.
    + rewrite (lookup_or_fetch_fetching _ _ _ _ _ _ _ Hk Hf). simpl. lia.
    + destruct c as [c|].
      * destruct (lookup_or_fetch_refresh _ c a o cn st1 ℓ Hk Hf) as (_ & _ & _ & Hps).
        rewrite Hps, length_app. simpl. lia.
      * rewrite (lookup_or_fetch_refresh_throw _ _ _ _ _ _ Hk Hf). simpl. lia.
  - destruct c as [c|].
    + destruct (lookup_or_fetch_cold _ c a o cn st1 Hk Hc) as (_ & _ & Hps & _).
      rewrite Hps, length_app. simpl. lia.
    + rewrite lookup_or_fetch_cold_throw by done. simpl. lia.
Qed.

(** ** Properties of the cache as a whole *)

(** Nothing is ever evicted: an entry the cache holds is there after any
    further calls and settlements, and once it holds a promise it holds
    one for good. *)
Theorem entries_are_never_removed evs st st' cn k e :
  reachable JSON_stringify st →
  run JSON_stringify evs st = Some st' →
  entry st cn k = Some e →
  ∃ e', entry st' cn k = Some e' ∧ (is_Some (promise e) → is_Some (promise e')).
Proof.
  intros Hreach. apply reachable_Inv in Hreach. revert st e Hreach.
  induction evs as [|ev evs IH]; simpl; intros st e HI Hrun He.
  - injection Hrun as <-. eauto.
  - destruct (step JSON_stringify st ev) as [st1|] eqn:Hstep; [|done].
    destruct (step_keeps_entry st ev st1 cn k e HI Hstep He) as (e1 & He1 & Hp1).
    destruct (IH st1 e1 (Inv_step _ _ _ _ HI Hstep) Hrun He1) as (e' & He' & Hp').
    exists e'. split; [done|]. tauto.
Qed.

(** Keys that differ in the controller name or in the JSON text of the
    options do not interfere: a call for one leaves the entry of the other
    as it is and makes no fetch for it. *)
Theorem calls_for_other_keys_do_not_interfere c a o cn0 st cn k e :
  reachable JSON_stringify st →
  ¬ (cn0 = cn ∧ JSON_stringify o = k) →
  entry st cn k = Some e →
  let r := returnCacheAndStartRefetch JSON_stringify c a o cn0 st in
  entry r.1 cn k = Some e ∧
  ∀ p a', fetch_for JSON_stringify r.1 p cn a' k → fetch_for JSON_stringify st p cn a' k.
Proof.
  intros Hreach Hne He. simpl. apply reachable_Inv in Hreach.
  apply entry_Some in He as (ℓ & Hl & He).
  destruct (call_frame JSON_stringify c a o cn0 st cn k ℓ e Hreach Hne Hl He) as [Hl' He'].
  split; [apply entry_Some; by eauto|].
  intros p a' (ps & Hp & E1 & E2 & E3).
  apply call_new_promises in Hp as [Hp|(_ & _ & Hk)]; [by exists ps|].
  destruct Hne. apply key_eq in Hk as [Hk1 Hk2]. split; congruence.
Qed.

(** As long as no call has thrown and every fetch that settled has
    fulfilled, a raised flag always has its fetch in flight: an entry gets
    stuck with the flag up only through a rejected fetch, or through a
    call that throws after it has raised the flag. *)
Theorem without_failures_flag_means_in_flight evs st cn k e :
  run JSON_stringify evs init = Some st →
  all_clean JSON_stringify evs init →
  entry st cn k = Some e → isFetching e = Some true →
  ∃ p a, pending st p ∧ fetch_for JSON_stringify st p cn a k.
Proof.
  intros Hrun Hclean He Hf.
  assert (HL : Live JSON_stringify st).
  { eapply Live_run; [apply Inv_init| |done..].
    intros cn' k' e'. unfold entry, entry_loc. simpl. by rewrite lookup_empty. }
  destruct (HL cn k e He Hf) as (p & ps & Hp & Hs & Hk).
  exists p, (req_action (request ps)). split; [by exists ps|].
  exists ps. apply key_eq in Hk as [E1 E2]. done.
Qed.

(** As long as the cache has only been called with the actions [browse]
    and [read], as the helper calls it, a call with one of them for options
    whose JSON text is neither of these words never returns [undefined]:
    when it returns, and does not throw, it returns a promise that a
    controller has handed out.  The empty object that lines 192-194 store
    under the name of the action is never taken for an entry. *)
Theorem helper_calls_never_return_undefined evs st c a o cn :
  run JSON_stringify evs init = Some st →
  Forall helper_call evs →
  a = "browse" ∨ a = "read" →
  JSON_stringify o ≠ "browse" → JSON_stringify o ≠ "read" →
  let r := returnCacheAndStartRefetch JSON_stringify c a o cn st in
  ∀ v, r.2 = Normal v → ∃ p, v = Some p ∧ p < length (promises r.1).
Proof.
  intros Hrun Hall Ha Hb Hr r v Hv. subst r.
  assert (HI : Inv JSON_stringify st) by (apply reachable_Inv; by exists evs).
  assert (HF : Filled st).
  { eapply Filled_run; [apply Inv_init| |done..].
    intros cn' k' e'. unfold entry, entry_loc. simpl. by rewrite lookup_empty. }
  assert (Hsome : ∃ p, v = Some p).
  { revert Hv. rewrite rcasr_split.
    pose proof (Filled_ensure cn a st HI HF Ha) as HF1.
    pose proof (Inv_ensure JSON_stringify cn a st HI) as HI1.
    pose proof (ensure_objects_controller cn a st) as Hc.
    set (st1 := (ensure_objects cn a st).1) in *. clearbody st1.
    destruct (entry_loc st1 cn (JSON_stringify o)) as [ℓ|] eqn:Hk.
    - destruct (entry_valid _ _ _ _ HI1 Hk) as [e He].
      pose proof He as He'. apply entry_Some in He' as (ℓ' & Hl' & Hh).
      assert (ℓ' = ℓ) as -> by congruence.
      assert (Hpr : ∃ p, promise e = Some p).
      { destruct (promise e) as [p|] eqn:Hp; [by eauto|].
        destruct (HF1 cn _ e He Hp); done. }
      destruct Hpr as [p Hpr]. exists p. revert Hv.
      destruct (truthy (isFetching e)) eqn:Hf.
      + rewrite (lookup_or_fetch_fetching _ c a o cn st1 ℓ Hk); [|by rewrite Hh].
        simpl. rewrite Hh. simpl. rewrite Hpr. by intros [= <-].
      + destruct c as [c|].
        * destruct (lookup_or_fetch_refresh _ c a o cn st1 ℓ Hk) as (-> & _);
            [by rewrite Hh|].
          rewrite Hh. simpl. rewrite Hpr. by intros [= <-].
        * rewrite (lookup_or_fetch_refresh_throw _ a o cn st1 ℓ Hk); [done|by rewrite Hh].
    - destruct c as [c|].
      + destruct (lookup_or_fetch_cold _ c a o cn st1 Hk Hc) as (-> & _).
        intros [= <-]. eauto.
      + by rewrite lookup_or_fetch_cold_throw. }
  destruct Hsome as [p ->]. exists p. split; [done|].
  destruct (call_returns_stored _ _ _ _ _ _ _ Hv) as (e & He & Hpr).
  apply entry_Some in He as (ℓ & _ & He).
  eapply stored_below; [by apply Inv_call|done..].
Qed.

(** The cache never fetches on its own: the fetches made are at most as
    many as the calls, and a settlement makes none. *)
Theorem fetches_bounded_by_calls evs st st' :
  run JSON_stringify evs st = Some st' →
  length (promises st') ≤ length (promises st) + count_calls evs.
Proof.
  revert st. induction evs as [|ev evs IH]; simpl; intros st Hrun.
  - injection Hrun as <-. lia.
  - destruct (step JSON_stringify st ev) as [st1|] eqn:Hstep; [|done].
    apply IH in Hrun. destruct ev as [c a o cn|p s]; simpl in Hstep.
    + injection Hstep as <-. pose proof (call_at_most_one c a o cn st). lia.
    + apply settle_length in Hstep. lia.
Qed.

(** In every reachable state a key has at most one fetch that has not
    fulfilled, pending or rejected; and while the flag of its entry is
    down, every fetch ever made for the key has fulfilled. *)
Theorem at_most_one_unfulfilled_fetch_per_key st :
  reachable JSON_stringify st →
  (∀ p q cn a a' k,
     fetch_for JSON_stringify st p cn a k → fetch_for JSON_stringify st q cn a' k →
     ¬ fulfilled st p → ¬ fulfilled st q → p = q) ∧
  (∀ p cn a k e,
     entry st cn k = Some e → truthy (isFetching e) = false →
     fetch_for JSON_stringify st p cn a k → fulfilled st p).
Proof.
  intros [evs Hrun].
  assert (HT : Tidy JSON_stringify st).
  { eapply Tidy_run; [apply Inv_init|apply Tidy_init|done]. }
  destruct HT as [T1 T2]. split.
  - intros p q cn a a' k Hfp Hfq Hnp Hnq.
    apply fetch_for_key in Hfp as (ps & Hp & Hkp).
    apply fetch_for_key in Hfq as (qs & Hq & Hkq).
    apply (T1 p q ps qs); try done; [| |congruence].
    + intros r Hr. apply Hnp. by exists ps, r.
    + intros r Hr. apply Hnq. by exists qs, r.
  - intros p cn a k e He Hf Hfp.
    apply fetch_for_key in Hfp as (ps & Hp & Hkp).
    destruct (T2 cn k e p ps He Hf Hp Hkp) as [r Hr]. by exists ps, r.
Qed.

End CacheCoverage.

(** * More about the helper *)

Section HelperCoverage.

Context {Opts Controller Rows Pagination Data Self : Type}.
Variable JSON_stringify : Opts → string.
Variable empty_hash : Opts.
Variables has_id has_slug : Opts → bool.
Variable filter_string : Opts → option string.
Variable set_filter : string → Opts → Opts.
Variable empty_data : Data.
Variable apiVersion_of : Data → option string.
Variable error_of : Data → option string.
Variable resolvePaths : Data → Self → string → string.
Variable i18n_t : string → string.
Variable api : gmap string (gmap string Controller).
Variable slow_helper_log : Completion unit.

Abbreviation Options := (@Options Opts Rows Pagination Data Self).
Abbreviation ApiResult := (@ApiResult Rows Pagination).
Abbreviation State := (@State Opts Controller ApiResult).
Abbreviation the_frame := (frame_of empty_data error_of).
Abbreviation the_get :=
  (get JSON_stringify empty_hash has_id has_slug filter_string set_filter
     empty_data apiVersion_of error_of resolvePaths i18n_t api slow_helper_log).
Abbreviation the_options := (default empty_options).
Abbreviation the_hash options := (default empty_hash (hash (the_options options))).
Abbreviation the_data options := (default empty_data (data (the_options options))).
Abbreviation the_apiOptions self options :=
  (parseOptions filter_string set_filter resolvePaths (the_data options) self
     (the_hash options)).
Abbreviation the_action options :=
  (if has_id (the_hash options) || has_slug (the_hash options) then "read" else "browse").
Abbreviation the_chain self resource options f :=
  (λ s, finally_ (catch_ (then_ s (success resource f (the_frame options)))
                    (error_handler (the_options options) self (the_frame options)))
          slow_helper_log).

Implicit Types (options : option Options) (st : State) (self : Self) (resource : string).



(** A resource name that [RESOURCES] has no property for, own or
    inherited, makes the helper render the inverse block on the frame
    whose [error] is the invalid-resource warning; the state is left as it
    is and no fetch is made.  What the inverse block throws, the helper
    throws. *)
Theorem unknown_resource_renders_inverse self resource options st f :
  fn (the_options options) = Some f →
  resource ∉ ["posts"; "tags"; "pages"; "authors"] →
  resource ∉ Object_prototype →
  the_get self resource options st =
  (st, match call_inverse (the_options options) self
               (set_error (i18n_t "warnings.helpers.get.invalidResource")
                  (the_frame options)) with
       | Normal rendered => Normal (Promise_resolve (Some rendered))
       | Throw e => Throw e
       end).
Proof.
  intros Hf H1 H2. eapply get_unknown_resource; [exact Hf|].
  apply (RESOURCES_get_Undefined JSON_stringify empty_hash has_id has_slug filter_string
           set_filter empty_data apiVersion_of error_of resolvePaths i18n_t).
  done.
Qed.

(** When the fetch fulfils, the block function is called on the result,
    with [result.pagination] set from [result.meta.pagination], on the
    frame as [createFrame] made it, with the [error] that [options.data]
    has, if any, and with the rows of the resource as first block parameter and the
    pagination, when there is one, as second.  The promise of the helper
    fulfils with what the block renders; when the block throws an error,
    the promise settles to what the inverse block makes of the frame whose
    [error] is the message of the error, and when it throws [null] or
    [undefined] the promise is rejected with a [TypeError]; and when the
    callback of [finally] throws, the promise is rejected with what it
    throws instead. *)
Theorem get_renders_the_block self resource options st st' source chain f result :
  the_get self resource options st = (st', Normal (Promise_chain source chain)) →
  fn (the_options options) = Some f →
  let blockParams :=
    BP_rows (rows result !! resource) ::
    match meta_pagination result with Some pg => [BP_pagination pg] | None => [] end in
  let shown :=
    {| rows := rows result; meta_pagination := meta_pagination result;
       pagination := match meta_pagination result with
                     | Some pg => Some pg
                     | None => pagination result
                     end |} in
  chain (Fulfilled result) =
  finally_
    match f shown (the_frame options) blockParams with
    | Normal rendered => Fulfilled rendered
    | Throw (ErrorObject message) =>
        settled_of (call_inverse (the_options options) self
                      (set_error message (the_frame options)))
    | Throw Nullish => Rejected TypeError
    end
    slow_helper_log.
Proof.
  intros Hget Hf. simpl.
  destruct (get_chain _ _ _ _ _ _ _ _ _ _ _ _ _ _ _ _ _ _ _ _ Hget) as (f' & Hf' & ->).
  assert (f' = f) as -> by congruence.
  unfold catch_, then_, success, error_handler. f_equal.
  destruct result as [rws [pg|] pgn]; simpl.
  - destruct (f _ _ _) as [v|[|message]]; [done..|]. simpl.
    by destruct (call_inverse _ _ _).
  - destruct (f _ _ _) as [v|[|message]]; [done..|]. simpl.
    by destruct (call_inverse _ _ _).
Qed.

End HelperCoverage.

(** * The code card *)

Section CardFacts.

Variable getLanguage : option string → bool.
Variable highlight : option string → string → Card.HighlightResult.
Variable highlightAuto : string → Card.HighlightResult.
Variable escape : string → string.

Abbreviation render := (Card.render getLanguage highlight highlightAuto escape).
Abbreviation process := (Card.process getLanguage highlight highlightAuto escape).

Implicit Types (payload : Card.Payload).




Lemma render_escapes payload :
  truthy_string (Card.code payload) = true →
  getLanguage (Card.language payload) = false →
  Card.noHighlightRe (Card.language payload) = false →
  (render payload).1 =
  {| Card.code := Some (escape (default "" (Card.code payload)));
     Card.language := Card.language payload;
     Card.caption := Card.caption payload |}.
Proof.
  intros Hc Hl Hn. unfold Card.render, Card.process. rewrite Hc, Hl, Hn. simpl.
  by destruct (truthy_string (Card.caption payload)).
Qed.

(** [render] writes the escaped code back into the payload, so rendering
    the same payload again escapes it again: for a language [hljs] does not
    know and that is not one of the no-highlight names, the second
    rendering inserts the code escaped twice. *)
Theorem rendering_again_escapes_again payload :
  truthy_string (Card.code payload) = true →
  getLanguage (Card.language payload) = false →
  Card.noHighlightRe (Card.language payload) = false →
  (∀ s, s ≠ "" → escape s ≠ "") →
  let text := default "" (Card.code payload) in
  let once := (render payload).1 in
  Card.code once = Some (escape text) ∧
  Card.language once = Card.language payload ∧
  Card.code (render once).1 = Some (escape (escape text)).
Proof.
  intros Hc Hl Hn Hesc. simpl. rewrite (render_escapes payload Hc Hl Hn).
  do 2 (split; [done|]). rewrite render_escapes; [done| |done..].
  simpl. apply negb_true_iff, String.eqb_neq, Hesc.
  destruct (Card.code payload) as [s|]; [|done]. simpl in *.
  intros ->. done.
Qed.

End CardFacts.

Section CardUrlFacts.

Context {UrlOptions : Type}.
Variable htmlAbsoluteToRelative : string → UrlOptions → string.
Variable htmlRelativeToAbsolute : string → UrlOptions → string.


End CardUrlFacts.

(** * Heading ids *)

Lemma lower_ascii_word c :
  Markdown.is_word c = true → Markdown.is_slug_char (lower_ascii c) = true.
Proof. destruct c as [[] [] [] [] [] [] [] []]; vm_compute; done. Qed.

Lemma slug_char_fixed c :
  Markdown.is_slug_char c = true → Markdown.is_word c = true ∧ lower_ascii c = c.
Proof. destruct c as [[] [] [] [] [] [] [] []]; vm_compute; done. Qed.

Lemma slug_chars s :
  Markdown.all_chars Markdown.is_slug_char (to_lower (Markdown.keep_word s)) = true.
Proof.
  induction s as [|c s IH]; simpl; [done|].
  destruct (Markdown.is_word c) eqn:Hc; [|done]. simpl.
  by rewrite lower_ascii_word, IH.
Qed.

Lemma slug_fixed s :
  Markdown.all_chars Markdown.is_slug_char s = true →
  to_lower (Markdown.keep_word s) = s.
Proof.
  induction s as [|c s IH]; simpl; [done|].
  intros [Hc Hs]%andb_true_iff. destruct (slug_char_fixed c Hc) as [-> Hl].
  simpl. by rewrite Hl, IH.
Qed.

Lemma slug_app s t :
  to_lower (Markdown.keep_word (s +:+ t))
  = to_lower (Markdown.keep_word s) +:+ to_lower (Markdown.keep_word t).
Proof.
  induction s as [|c s IH]; simpl; [done|].
  destruct (Markdown.is_word c); simpl; by rewrite ?IH.
Qed.

(** [slugify] on the empty table, as [heading_open] calls it. *)
Lemma slugify_empty s :
  Markdown.slugify s ∅ =
  let slug := to_lower (Markdown.keep_word s) in
  if String.eqb slug "constructor" then
    Some (slug +:+ Markdown.Object_text +:+ "1",
          {[ slug := Markdown.Str (Markdown.Object_text +:+ "1") ]})
  else if String.eqb slug "__proto__" then
    Some (slug +:+ Markdown.Object_prototype_text, ∅)
  else Some (slug, ∅).
Proof.
  unfold Markdown.slugify. rewrite lookup_empty. simpl.
  destruct (String.eqb _ "constructor"); [|done].
  by rewrite insert_empty.
Qed.

(** On the empty table, as [heading_open] calls it, the slug of a title is
    the word characters of the title in lower case: it is made of
    lower-case letters, digits and underscores only, the slug of two texts
    put together is their slugs put together, the table stays empty and
    the slug is its own slug.  Two slugs are the exception, [constructor]
    and [__proto__]: what [slugify] returns for them is the slug followed
    by the text of what the empty table inherits under that name, and for
    [constructor] it enters that text into the table. *)
Theorem slug_is_lower_case_word s :
  let slug := to_lower (Markdown.keep_word s) in
  Markdown.all_chars Markdown.is_slug_char slug = true ∧
  (∀ t, to_lower (Markdown.keep_word (s +:+ t))
        = slug +:+ to_lower (Markdown.keep_word t)) ∧
  (slug ≠ "constructor" → slug ≠ "__proto__" →
   Markdown.slugify s ∅ = Some (slug, ∅) ∧ Markdown.slugify slug ∅ = Some (slug, ∅)) ∧
  (slug = "constructor" →
   Markdown.slugify s ∅
   = Some ("constructorfunction Object() { [native code] }1",
           {[ "constructor" := Markdown.Str "function Object() { [native code] }1" ]})) ∧
  (slug = "__proto__" →
   Markdown.slugify s ∅ = Some ("__proto__[object Object]", ∅)).
Proof.
  simpl. split; [apply slug_chars|]. split; [intros t; apply slug_app|].
  rewrite !slugify_empty. simpl.
  rewrite (slug_fixed _ (slug_chars s)). split; [|split].
  - intros H1 H2. apply String.eqb_neq in H1, H2. by rewrite H1, H2.
  - intros ->. done.
  - intros ->. done.
Qed.

(** Even with one table for all the headings of a document, [slugify]
    would never count: it enters no slug into the table but
    [constructor], so that every other title gets its plain slug, without
    a number, however often it has been seen before. *)
Theorem slugify_never_counts titles :
  ∃ slugs usedHeaders,
    Markdown.slugify_all titles ∅ = Some (slugs, usedHeaders) ∧
    dom usedHeaders ⊆ {[ "constructor" ]} ∧
    Forall2 (λ title slug,
               to_lower (Markdown.keep_word title) ≠ "constructor" →
               to_lower (Markdown.keep_word title) ≠ "__proto__" →
               slug = to_lower (Markdown.keep_word title)) titles slugs.
Proof.
  assert (Hgen : ∀ (used : gmap string Markdown.Value),
            (∀ k v, used !! k = Some v → k = "constructor" ∧ ∃ s, v = Markdown.Str s) →
            ∃ slugs used',
              Markdown.slugify_all titles used = Some (slugs, used') ∧
              (∀ k v, used' !! k = Some v → k = "constructor" ∧ ∃ s, v = Markdown.Str s) ∧
              Forall2 (λ title slug,
                         to_lower (Markdown.keep_word title) ≠ "constructor" →
                         to_lower (Markdown.keep_word title) ≠ "__proto__" →
                         slug = to_lower (Markdown.keep_word title)) titles slugs).
  { induction titles as [|title titles IH]; intros used Hused; simpl.
    - exists [], used. split; [done|]. split; [done|]. constructor.
    - assert (Hstep : ∃ slug used1,
                Markdown.slugify title used = Some (slug, used1) ∧
                (∀ k v, used1 !! k = Some v → k = "constructor" ∧ ∃ s, v = Markdown.Str s) ∧
                (to_lower (Markdown.keep_word title) ≠ "constructor" →
                 to_lower (Markdown.keep_word title) ≠ "__proto__" →
                 slug = to_lower (Markdown.keep_word title))).
      { unfold Markdown.slugify.
        destruct (used !! to_lower (Markdown.keep_word title)) as [v|] eqn:Hv.
        - destruct (Hused _ _ Hv) as [Hk [s ->]]. rewrite Hk in *.
          destruct (Markdown.truthy_value _); simpl.
          + eexists _, _. split; [done|]. split; [|done].
            intros k v. rewrite lookup_insert_Some. intros [[<- <-]|[_ Hkv]]; by eauto.
          + eexists _, _. split; [done|]. split; [done|]. done.
        - destruct (String.eqb _ "constructor") eqn:Hc.
          + apply String.eqb_eq in Hc. rewrite Hc. eexists _, _. split; [done|].
            split; [|done]. intros k v. rewrite lookup_insert_Some.
            intros [[<- <-]|[_ Hkv]]; by eauto.
          + destruct (String.eqb _ "__proto__") eqn:Hp.
            * apply String.eqb_eq in Hp. eexists _, _. split; [done|]. split; [done|].
              by rewrite Hp.
            * eexists _, _. split; [done|]. split; [done|]. done. }
      destruct Hstep as (slug & used1 & -> & Hused1 & Hslug).
      destruct (IH used1 Hused1) as (slugs & used' & -> & Hused' & Hall).
      exists (slug :: slugs), used'. split; [done|]. split; [done|]. by constructor. }
  destruct (Hgen ∅) as (slugs & used' & Hrun & Hused' & Hall).
  { intros k v. by rewrite lookup_empty. }
  exists slugs, used'. split; [done|]. split; [|done].
  intros k [v Hv]%elem_of_dom. destruct (Hused' k v Hv) as [-> _]. set_solver.
Qed.

(** The rule throws a [TypeError] when there is no token at [idx], or no
    next token, or the next token has no children; otherwise the token at
    [idx] keeps its attributes and gets, after them, the id made of the
    contents of those children, and no other token changes.  The id is
    the slug of the title with no number appended, so that equal titles
    get equal ids, but for the two slugs [constructor] and [__proto__],
    for which it is the slug followed by the text of what the empty table
    inherits under that name. *)
Theorem heading_open_sets_id (tokens : list Markdown.Token) (idx : nat) :
  match tokens !! idx, tokens !! (idx + 1) ≫= Markdown.children with
  | Some token, Some contents =>
      let slug := to_lower (Markdown.keep_word (foldl (λ acc t, acc +:+ t) "" contents)) in
      let id :=
        if String.eqb slug "constructor"
        then "constructorfunction Object() { [native code] }1"
        else if String.eqb slug "__proto__" then "__proto__[object Object]"
        else slug in
      Markdown.heading_open tokens idx =
      (<[idx := {| Markdown.attrs :=
                     Some (default [] (Markdown.attrs token) ++ [("id", id)]);
                   Markdown.children := Markdown.children token |}]> tokens,
       Markdown.Rendered)
  | _, _ => (Markdown.heading_open tokens idx).2 = Markdown.Threw TypeError
  end.
Proof.
  unfold Markdown.heading_open.
  destruct (tokens !! idx) as [token|] eqn:Ht; [|done].
  assert (Hnext : ∀ tok : Markdown.Token, <[idx := tok]> tokens !! (idx + 1)
                                          = tokens !! (idx + 1)).
  { intros tok. apply list_lookup_insert_ne. lia. }
  rewrite Hnext.
  destruct (tokens !! (idx + 1) ≫= Markdown.children) as [contents|]; [|done].
  rewrite slugify_empty. simpl.
  destruct (String.eqb _ "constructor") eqn:Hc.
  - apply String.eqb_eq in Hc. rewrite Hc. simpl. by rewrite list_insert_insert_eq.
  - destruct (String.eqb _ "__proto__") eqn:Hp.
    + apply String.eqb_eq in Hp. rewrite Hp. simpl. by rewrite list_insert_insert_eq.
    + simpl. by rewrite list_insert_insert_eq.
Qed.

(** * The single sign-on adapter *)

Section LoginFacts.

Context {User Role Id V : Type}.
Variable ADMINS : list string.
Variable verify : string → Login.Try Login.Claims.
Variable findUser : string → Login.Try (option User).
Variable findRole : string → Login.Try (option Role).
Variable editUser : @Login.UserData Role → @Login.EditOptions Id → Login.Try User.
Variable addUser : @Login.UserData Role → @Login.EditOptions Id → Login.Try User.
Variable user_id : User → Id.
Variable isLocked : User → bool.
Variable isInactive : User → bool.
Variable i18n_t : string → string.
Variable toLowerCase : string → string.
Variable role_fails_first : bool.

Abbreviation Request := (@Login.Request User V).
Abbreviation authenticate :=
  (Login.authenticate (V:=V) ADMINS verify findUser findRole editUser addUser user_id
     isLocked isInactive i18n_t toLowerCase role_fails_first).
Abbreviation parser :=
  (Login.parser (V:=V) ADMINS verify findUser findRole editUser addUser user_id
     isLocked isInactive i18n_t toLowerCase role_fails_first).
Abbreviation roleName name :=
  (if bool_decide (name ∈ ADMINS) then "Administrator" else "Author").

Implicit Types (req : Request) (password : string).

Lemma authenticate_returns req password u :
  (authenticate req password).2 = Login.Returns u →
  isLocked u = false ∧ isInactive u = false.
Proof.
  unfold Login.authenticate.
  destruct (truthy_string (Login.traP_token req)); simpl; [|done].
  destruct (verify _) as [claims|e]; [|done].
  destruct (findUser _) as [user|e]; [|by destruct (findRole _)].
  destruct (findRole _) as [role|e]; [|done].
  destruct (match user with Some _ => editUser | None => addUser end _ _) as [m|e]; [|done].
  destruct (isLocked m) eqn:Hl; [done|]. destruct (isInactive m) eqn:Hi; [done|].
  simpl. by intros [= <-].
Qed.

(** With a body on the request, [parser] always goes on to [next].  It
    puts a user in [req.user] only when every step has succeeded, and that
    user is neither locked nor suspended; the body is then left as the
    client sent it.  After any failure [req.user] is what it was, and
    [signIn] on the body rejects with the error that was caught, under the
    prefix [traP ID]. *)
Theorem parser_fails_closed req password (body : Login.Body V) :
  Login.req_body req = Some body →
  ∃ req', (parser req password).2 = Login.Next req' ∧
    match (authenticate req password).2 with
    | Login.Returns u =>
        Login.req_user req' = Some u ∧ isLocked u = false ∧ isInactive u = false ∧
        Login.req_body req' = Some body
    | Login.Throws e =>
        Login.req_user req' = Login.req_user req ∧
        ∃ body', Login.req_body req' = Some body' ∧
                 Login.signIn body'
                 = Login.RejectsWith (Login.new_Error ("traP ID " +:+ Login.to_string e))
    end.
Proof.
  intros Hb. unfold Login.parser.
  pose proof (authenticate_returns req password) as Hok.
  destruct (authenticate req password) as [queries [u|e]]; simpl in *.
  - eexists. split; [done|]. simpl. destruct (Hok u eq_refl). done.
  - rewrite Hb. eexists. split; [done|]. simpl. split; [done|].
    eexists. split; [done|]. done.
Qed.

(** The models are never queried without a verified token: whenever a
    query is made, the cookie held a token that verified, and the first two
    queries are for the user named by the token and for the role
    [Administrator] if that name is among the administrators, [Author] if
    not. *)
Theorem queries_need_a_verified_token req password :
  (parser req password).1 ≠ [] →
  ∃ token claims rest,
    Login.traP_token req = Some token ∧ token ≠ "" ∧
    verify token = Login.Returns claims ∧
    (parser req password).1
    = Login.FindUser (Login.claim_id claims)
      :: Login.FindRole (roleName (Login.claim_id claims)) :: rest.
Proof.
  assert (Hq : (parser req password).1 = (authenticate req password).1).
  { unfold Login.parser. destruct (authenticate req password) as [queries [u|e]]; [done|].
    by destruct (Login.req_body req). }
  rewrite Hq. unfold Login.authenticate.
  destruct (Login.traP_token req) as [token|] eqn:Ht; simpl; [|done].
  destruct (String.eqb token "") eqn:He; simpl; [done|].
  destruct (verify token) as [claims|e] eqn:Hv; [|done].
  intros _. exists token, claims.
  destruct (findUser _) as [user|e];
    [|destruct (findRole _); by eexists; split; [|split; [by apply String.eqb_neq|]]].
  destruct (findRole _) as [role|e];
    [|by eexists; split; [|split; [by apply String.eqb_neq|]]].
  destruct (match user with Some _ => editUser | None => addUser end _ _) as [m|e];
    [|by eexists; split; [|split; [by apply String.eqb_neq|]]].
  destruct (isLocked m); [by eexists; split; [|split; [by apply String.eqb_neq|]]|].
  destruct (isInactive m); by eexists; split; [|split; [by apply String.eqb_neq|]].
Qed.

(** Once the token has verified and both queries have answered, the user
    record is written before the account is looked at: an existing user is
    edited under its own id and a new one added under no id, with the
    name and the email of the token, the name in lower case as slug, the
    fresh password and the one role found, whether or not the account
    turns out to be locked or suspended. *)
Theorem record_written_before_lock_check req password token claims user role :
  Login.traP_token req = Some token → token ≠ "" →
  verify token = Login.Returns claims →
  findUser (Login.claim_id claims) = Login.Returns user →
  findRole (roleName (Login.claim_id claims)) = Login.Returns role →
  let data :=
    {| Login.data_email := Login.claim_email claims;
       Login.data_name := Login.claim_id claims;
       Login.data_slug := toLowerCase (Login.claim_id claims);
       Login.data_password := password;
       Login.data_roles := [role] |} in
  let options :=
    {| Login.options_id := user_id <$> user; Login.options_internal := true |} in
  (parser req password).1
  = [Login.FindUser (Login.claim_id claims);
     Login.FindRole (roleName (Login.claim_id claims));
     if user is Some _ then Login.EditUser data options else Login.AddUser data options].
Proof.
  intros Ht Hne Hv Hu Hr. simpl.
  assert (Hq : (parser req password).1 = (authenticate req password).1).
  { unfold Login.parser. destruct (authenticate req password) as [queries [u|e]]; [done|].
    by destruct (Login.req_body req). }
  rewrite Hq. unfold Login.authenticate. rewrite Ht. simpl.
  apply String.eqb_neq in Hne. rewrite Hne. simpl. rewrite Hv, Hu, Hr.
  destruct (match user with Some _ => editUser | None => addUser end _ _) as [m|e]; [|done].
  destruct (isLocked m); [done|]. by destruct (isInactive m).
Qed.

End LoginFacts.

(** * The further properties at work *)

(** The entry of [posts] survives the failure of its fetch and a call for
    [tags]. *)
Lemma entries_are_never_removed_witness :
  ∃ e', entry (demo_call (Some tt) "browse" NoOptions "tagsPublic" demo_failed).1
          "postsPublic" "{}" = Some e' ∧
        (is_Some (Some 0) → is_Some (promise e')).
Proof.
  apply (entries_are_never_removed demo_stringify
           [Settle 0 (Rejected boom); Call (Some tt) "browse" NoOptions "tagsPublic"]
           demo_cold _ "postsPublic" "{}"
           {| isFetching := Some true; promise := Some 0 |} demo_cold_reachable).
  - reflexivity.
  - reflexivity.
Defined.

(** A call for [tags] during the first fetch of [posts]. *)
Lemma calls_for_other_keys_do_not_interfere_witness :
  entry (demo_call (Some tt) "browse" NoOptions "tagsPublic" demo_cold).1
    "postsPublic" "{}" = Some {| isFetching := Some true; promise := Some 0 |}.
Proof.
  assert (Hne : ¬ ("tagsPublic" = "postsPublic" ∧ demo_stringify NoOptions = "{}")).
  { intros [H _]. discriminate H. }
  assert (He : entry demo_cold "postsPublic" "{}"
               = Some {| isFetching := Some true; promise := Some 0 |}) by reflexivity.
  exact (proj1 (calls_for_other_keys_do_not_interfere demo_stringify (Some tt) "browse"
                  NoOptions "tagsPublic" demo_cold "postsPublic" "{}" _
                  demo_cold_reachable Hne He)).
Defined.

(** During the refresh of [posts], with no failure so far, promise 1 is
    in flight. *)
Lemma without_failures_flag_means_in_flight_witness :
  ∃ p a, pending demo_refreshing p ∧
         fetch_for demo_stringify demo_refreshing p "postsPublic" a "{}".
Proof.
  apply (without_failures_flag_means_in_flight demo_stringify
           [Call (Some tt) "browse" NoOptions "postsPublic";
            Settle 0 (Fulfilled (demo_result "first"));
            Call (Some tt) "browse" NoOptions "postsPublic"]
           demo_refreshing "postsPublic" "{}"
           {| isFetching := Some true; promise := Some 0 |}).
  - vm_compute. reflexivity.
  - split; [eexists; reflexivity|]. split; [eexists; reflexivity|].
    split; [eexists; vm_compute; reflexivity|]. exact I.
  - vm_compute. reflexivity.
  - reflexivity.
Defined.

(** Two calls and a settlement make at most two fetches. *)
Lemma fetches_bounded_by_calls_witness :
  length (promises demo_refreshing) ≤ 0 + 2.
Proof.
  apply (fetches_bounded_by_calls demo_stringify
           [Call (Some tt) "browse" NoOptions "postsPublic";
            Settle 0 (Fulfilled (demo_result "first"));
            Call (Some tt) "browse" NoOptions "postsPublic"]
           init demo_refreshing).
  vm_compute. reflexivity.
Defined.

(** Once the first fetch has fulfilled, the entry of [posts] is idle and
    the one fetch made for it has fulfilled. *)
Lemma at_most_one_unfulfilled_fetch_per_key_witness :
  fulfilled demo_idle 0.
Proof.
  destruct (at_most_one_unfulfilled_fetch_per_key demo_stringify demo_idle
              demo_idle_reachable) as [_ Hidle].
  apply (Hidle 0 "postsPublic" "browse" "{}"
           {| isFetching := Some false; promise := Some 0 |}).
  - vm_compute. reflexivity.
  - reflexivity.
  - eexists. split; [vm_compute; reflexivity|]. split; [reflexivity|]. split; reflexivity.
Defined.

(** A [read] call after a [browse] call that found no controller and
    threw: the object stored for [browse] is not taken for an entry, and
    the call returns the promise of its own fetch. *)
Lemma helper_calls_never_return_undefined_witness :
  ∃ p, Some 0 = Some p ∧
       p < length (promises (demo_call (Some tt) "read" IdInfinity "postsPublic"
                               (demo_call None "browse" NoOptions "postsPublic"
                                  init).1).1).
Proof.
  apply (helper_calls_never_return_undefined demo_stringify
           [Call None "browse" NoOptions "postsPublic"]
           (demo_call None "browse" NoOptions "postsPublic" init).1
           (Some tt) "read" IdInfinity "postsPublic").
  - reflexivity.
  - constructor; [by left|constructor].
  - by right.
  - discriminate.
  - discriminate.
  - vm_compute. reflexivity.
Defined.

(** * The helper, the card, the heading ids and the adapter at work *)


(** [{{#get "comments"}}] renders the inverse block on the warning. *)
Lemma unknown_resource_renders_inverse_witness :
  demo_get "comments" (Some (demo_options NoOptions (Some inverse_renders))) demo_cold
  = (demo_cold, Normal (Promise_resolve (Some "warnings.helpers.get.invalidResource"))).
Proof.
  apply (unknown_resource_renders_inverse demo_stringify NoOptions
           demo_has_id (λ _, false) (λ _, None) (λ _ o, o) None id (λ _, None)
           (λ _ _ filter, filter) id demo_api (Normal tt)
           tt "comments" (Some (demo_options NoOptions (Some inverse_renders)))
           demo_cold demo_fn).
  - reflexivity.
  - intros H. repeat (apply elem_of_cons in H as [H|H]; [discriminate H|]).
    by apply elem_of_nil in H.
  - intros H. repeat (apply elem_of_cons in H as [H|H]; [discriminate H|]).
    by apply elem_of_nil in H.
Defined.

(** The block of [{{#get "posts"}}] renders the rows the fetch brought. *)
Lemma get_renders_the_block_witness :
  demo_chain (Fulfilled (demo_result "first")) = Fulfilled "first".
Proof.
  exact (get_renders_the_block demo_stringify NoOptions demo_has_id (λ _, false)
           (λ _, None) (λ _ o, o) None id (λ _, None) (λ _ _ filter, filter) id demo_api (Normal tt)
           tt "posts" (Some (demo_options NoOptions (Some inverse_renders)))
           init _ 0 demo_chain demo_fn (demo_result "first")
           (eq_refl : demo_get "posts"
                        (Some (demo_options NoOptions (Some inverse_renders))) init
                      = ((demo_get "posts"
                            (Some (demo_options NoOptions (Some inverse_renders)))
                            init).1, Normal (Promise_chain 0 demo_chain)))
           eq_refl).
Defined.

Lemma demo_escape_not_empty s : s ≠ "" → demo_escape s ≠ "".
Proof.
  destruct s as [|c s]; [done|]. intros _. simpl.
  destruct (Ascii.eqb c _); [done|]. by destruct (Ascii.eqb c _).
Qed.

(** A card in a language the highlighter does not know, rendered twice. *)
Lemma rendering_again_escapes_again_witness :
  let render := Card.render demo_getLanguage demo_highlight demo_highlightAuto demo_escape in
  Card.code (render demo_payload).1 = Some "a&lt;b" ∧
  Card.language (render demo_payload).1 = Some "elvish" ∧
  Card.code (render (render demo_payload).1).1 = Some "a&amp;lt;b".
Proof.
  apply (rendering_again_escapes_again demo_getLanguage demo_highlight demo_highlightAuto
           demo_escape demo_payload).
  - reflexivity.
  - reflexivity.
  - reflexivity.
  - exact demo_escape_not_empty.
Defined.


(** The heading [Hello, World!] has the slug [helloworld]. *)
Lemma slug_is_lower_case_word_witness :
  Markdown.slugify "Hello, World!" ∅ = Some ("helloworld", ∅) ∧
  Markdown.slugify "helloworld" ∅ = Some ("helloworld", ∅).
Proof.
  apply (proj1 (proj2 (proj2 (slug_is_lower_case_word "Hello, World!")))).
  - discriminate.
  - discriminate.
Defined.

(** The locked account of [Alice]: [next] is called, [req.user] stays
    unset and [signIn] rejects. *)
Lemma parser_fails_closed_witness :
  ∃ req', (demo_parser (demo_request (Some "good")) "secret").2 = Login.Next req' ∧
          Login.req_user req' = None ∧
          ∃ body', Login.req_body req' = Some body' ∧
                   Login.signIn body'
                   = Login.RejectsWith
                       (Login.new_Error "traP ID Error: errors.models.user.accountLocked").
Proof.
  destruct (parser_fails_closed demo_ADMINS demo_verify demo_findUser demo_findRole
              demo_editUser demo_addUser fst snd (λ _, false) id to_lower false
              (demo_request (Some "good")) "secret" {| Login.trap_id := None |} eq_refl)
    as (req' & Hnext & Hrest).
  exists req'. split; [exact Hnext|]. exact Hrest.
Defined.

(** The token [guest] verifies for [bob], who is no administrator. *)
Lemma queries_need_a_verified_token_witness :
  ∃ token claims rest,
    Some "guest" = Some token ∧ token ≠ "" ∧
    demo_verify token = Login.Returns claims ∧
    (demo_parser (demo_request (Some "guest")) "secret").1
    = Login.FindUser (Login.claim_id claims) :: Login.FindRole "Author" :: rest.
Proof.
  destruct (queries_need_a_verified_token demo_ADMINS demo_verify demo_findUser
              demo_findRole demo_editUser demo_addUser fst snd (λ _, false) id to_lower false
              (demo_request (Some "guest")) "secret")
    as (token & claims & rest & Ht & Hne & Hv & Hq).
  - discriminate.
  - exists token, claims, rest. do 3 (split; [assumption|]).
    injection Ht as <-. injection Hv as <-. exact Hq.
Defined.

(** The record of the locked account of [Alice] is edited under id 7. *)
Lemma record_written_before_lock_check_witness :
  (demo_parser (demo_request (Some "good")) "secret").1
  = [Login.FindUser "Alice"; Login.FindRole "Author";
     Login.EditUser
       {| Login.data_email := "alice@example.com"; Login.data_name := "Alice";
          Login.data_slug := "alice"; Login.data_password := "secret";
          Login.data_roles := [Some "Author"] |}
       {| Login.options_id := Some 7; Login.options_internal := true |}].
Proof.
  apply (record_written_before_lock_check demo_ADMINS demo_verify demo_findUser
           demo_findRole demo_editUser demo_addUser fst snd (λ _, false) id to_lower false
           (demo_request (Some "good")) "secret" "good"
           {| Login.claim_id := "Alice"; Login.claim_email := "alice@example.com" |}
           (Some (7, true)) (Some "Author")).
  - reflexivity.
  - discriminate.
  - reflexivity.
  - reflexivity.
  - reflexivity.
Defined.
